(** * NFTViewer: the portfolio pipeline of [src/NFTViewer.tsx]

    A shallow embedding of the component's data fetching
    ([fetchOpenSeaPrice], [fetchNFTMetadata], [fetchNFTs]) and of its
    derived view ([filteredAndSortedNFTs]), followed by the properties
    the specification states about them. The catalog browser of
    [src/src/App.tsx] (module [Catalog]) and [formatPrice] come after,
    with the properties their code shows.

    Conventions of the embedding:
    - a JavaScript [number] is [NaN] or a finite value kept as an exact
      rational ([Qc]); rounding, overflow and signed zero of IEEE doubles
      are outside the model;
    - [undefined] is [None]; a JSON [null] is [None] as well wherever the
      code treats the two alike (a falsy test, a property read that
      throws), and is kept apart ([nullable]) where it does not: the
      decimals and the symbol of a payment token, and the currency of an
      entry;
    - a thrown exception is the [Throw] outcome of [result], and
      [try { .. } catch { .. }] is [try_catch];
    - every network or contract call is an oracle field of [World];
    - arrays that the code may update in place live in a store
      ([gmap loc (list NFT)]). *)

From Stdlib Require Import ZArith QArith Qcanon List String Ascii Lia OrdersEx.
From stdpp Require Import base tactics option numbers list strings pretty gmap sorting.

Local Open Scope string_scope.
Local Open Scope list_scope.

(** ** JavaScript values *)

Inductive number : Type :=
| NaN
| Num (q : Qc).

(** [ToBoolean] on a number: [0] and [NaN] are falsy. *)
Definition truthy (x : number) : bool :=
  match x with
  | NaN => false
  | Num q => bool_decide (q ≠ 0%Qc)
  end.

(** [ToBoolean] on a string: only the empty string is falsy. *)
Definition truthy_string (s : string) : bool :=
  match s with
  | EmptyString => false
  | String _ _ => true
  end.

(** [a || b] where [a] is a possibly absent string. *)
Definition or_else (a : option string) (b : string) : string :=
  match a with
  | Some s => if truthy_string s then s else b
  | None => b
  end.

(** A value that may be the JSON [null]. *)
Inductive nullable (A : Type) : Type :=
| Null
| Val (a : A).
Arguments Null {A}.
Arguments Val {A} a.

(** [parseFloat] on the decimal string of an integer amount. *)
Definition parseFloat (amount : Z) : number := Num (Q2Qc (inject_Z amount)).

Definition ten : Qc := Q2Qc (10 # 1).

(** [Math.pow(10, d)]; an [undefined] exponent gives [NaN], and [null]
    counts as the exponent [0]. *)
Definition Math_pow10 (d : option (nullable Z)) : number :=
  match d with
  | None => NaN
  | Some Null => Num (ten ^ 0)
  | Some (Val d) =>
      if (0 <=? d)%Z then Num (ten ^ Z.to_nat d)
      else Num (/ (ten ^ Z.to_nat (- d)))
  end%Qc.

(** [a / b]. The only divisor in the source is a power of ten, which is
    never zero as a rational. *)
Definition number_div (a b : number) : number :=
  match a, b with
  | Num x, Num y => Num (x / y)
  | _, _ => NaN
  end.

(** [a - b]. *)
Definition number_sub (a b : number) : number :=
  match a, b with
  | Num x, Num y => Num (x - y)
  | _, _ => NaN
  end.

(** [String.prototype.replace] with a string pattern: the first
    occurrence of [pat], wherever it is, is replaced by [rep]. *)
Fixpoint drop_chars (n : nat) (s : string) : string :=
  match n, s with
  | S n', String _ s' => drop_chars n' s'
  | _, _ => s
  end.

Fixpoint replace (pat rep s : string) : string :=
  if String.prefix pat s then rep +:+ drop_chars (String.length pat) s
  else match s with
       | EmptyString => EmptyString
       | String c s' => String c (replace pat rep s')
       end.

(** [s.includes(t)]. *)
Fixpoint includes (s t : string) : bool :=
  String.prefix t s ||
  match s with
  | EmptyString => false
  | String _ s' => includes s' t
  end.

(** ** Exceptions *)

Inductive result (A : Type) : Type :=
| Ok (a : A)
| Throw (e : string).
Arguments Ok {A} a.
Arguments Throw {A} e.

Global Instance result_ret : MRet result := λ A a, Ok a.
Global Instance result_bind : MBind result := λ A B f m,
  match m with
  | Ok a => f a
  | Throw e => Throw e
  end.

(** [try { body } catch (e) { handler }] for a body without state. *)
Definition try_catch {A} (body : result A) (handler : string → A) : A :=
  match body with
  | Ok a => a
  | Throw e => handler e
  end.

(** ** Data *)

Record Attribute : Type := { trait_type : string; value : string }.

Record NFT : Type := {
  tokenId : string;
  name : string;
  image : string;
  description : string;
  attributes : option (list Attribute);
  collectionName : option string;
  collectionSymbol : option string;
  lowestPrice : option number;
  currency : option (nullable string)
}.

(** The token metadata document, as far as the component reads it. *)
Record Metadata : Type := {
  md_name : option string;
  md_image : option string;
  md_description : option string;
  md_attributes : option (list Attribute)
}.

(** The marketplace answer, as far as the component reads it. *)
Record PaymentToken : Type := {
  decimals : option (nullable Z);
  symbol : option (nullable string)
}.

Record SellOrder : Type := {
  current_price : option Z;
  payment_token_contract : option PaymentToken
}.

Record AssetData : Type := { sell_orders : option (list SellOrder) }.

Record Response : Type := { ok : bool; json : result AssetData }.

(** ** The outside world

    One field per remote call. [contract_tokenOfOwnerByIndex] is called
    through the contract object although [ERC721_ABI] does not list it;
    a world in which every such call throws is among the worlds below. *)
Record World : Type := {
  contract_name : result string;
  contract_symbol : result string;
  contract_balanceOf : result N;
  contract_tokenOfOwnerByIndex : nat → result N;
  contract_tokenURI : N → result string;
  fetch_json : string → result Metadata;
  fetch_opensea : string → result Response
}.

(** ** [fetchOpenSeaPrice] (lines 52-83) *)

(** [o.payment_token_contract.<field>]: reading a property of
    [undefined] throws. *)
Definition payment_token (o : SellOrder) : result PaymentToken :=
  match payment_token_contract o with
  | Some t => Ok t
  | None => Throw "TypeError"
  end.

(** [data.sell_orders?.[0]]. *)
Definition first_order (data : AssetData) : option SellOrder :=
  match sell_orders data with
  | Some (o :: _) => Some o
  | _ => None
  end.

(** [parseFloat(o.current_price) / Math.pow(10, o.payment_token_contract.decimals)]. *)
Definition listing_price (o : SellOrder) (cp : Z) : result number :=
  t ← payment_token o;
  Ok (number_div (parseFloat cp) (Math_pow10 (decimals t))).

Definition fetchOpenSeaPrice_try (w : World) (tokenId : string)
  : result (option (number * option (nullable string))) :=
  response ← fetch_opensea w tokenId;
  if negb (ok response) then Throw "Failed to fetch OpenSea data"
  else
    data ← json response;
    lowestPrice ←
      match first_order data with
      | Some o =>
          match current_price o with
          | Some cp => p ← listing_price o cp; Ok (Some p)
          | None => Ok None
          end
      | None => Ok None
      end;
    match lowestPrice, first_order data with
    | Some p, Some o =>
        if truthy p then t ← payment_token o; Ok (Some (p, symbol t))
        else Ok None
    | _, _ => Ok None
    end.

Definition fetchOpenSeaPrice (w : World) (tokenId : string)
  : option (number * option (nullable string)) :=
  try_catch (fetchOpenSeaPrice_try w tokenId) (λ _, None).

(** ** [fetchNFTMetadata] (lines 141-168) *)

Definition ipfs (s : string) : string :=
  replace "ipfs://" "https://ipfs.io/ipfs/" s.

(** [tokenId.toString()] of a big number: its decimal digits. *)
Definition toString (tokenId : N) : string := pretty tokenId.

Definition fetchNFTMetadata_try (w : World) (index : nat)
    (collectionName collectionSymbol : string) : result NFT :=
  tokenId ← contract_tokenOfOwnerByIndex w index;
  tokenURI ← contract_tokenURI w tokenId;
  metadata ← fetch_json w (ipfs tokenURI);
  Ok {| tokenId := toString tokenId;
        name := or_else (md_name metadata) ("#" +:+ toString tokenId);
        image := or_else (ipfs <$> md_image metadata) EmptyString;
        description := or_else (md_description metadata) EmptyString;
        attributes := md_attributes metadata;
        collectionName := Some collectionName;
        collectionSymbol := Some collectionSymbol;
        lowestPrice := None;
        currency := None |}.

Definition fetchNFTMetadata (w : World) (index : nat)
    (collectionName collectionSymbol : string) : option NFT :=
  try_catch
    (nft ← fetchNFTMetadata_try w index collectionName collectionSymbol;
     Ok (Some nft))
    (λ _, None).

(** ** Component state and [fetchNFTs] (lines 85-139) *)

Record State : Type := {
  nfts : list NFT;
  loading : bool;
  error : option string;
  priceLoading : bool
}.

Definition setNfts (v : list NFT) (st : State) : State :=
  {| nfts := v; loading := loading st; error := error st;
     priceLoading := priceLoading st |}.
Definition setLoading (v : bool) (st : State) : State :=
  {| nfts := nfts st; loading := v; error := error st;
     priceLoading := priceLoading st |}.
Definition setError (v : option string) (st : State) : State :=
  {| nfts := nfts st; loading := loading st; error := v;
     priceLoading := priceLoading st |}.
Definition setPriceLoading (v : bool) (st : State) : State :=
  {| nfts := nfts st; loading := loading st; error := error st;
     priceLoading := v |}.

(** A computation over the component state that may throw; the state
    reached when it throws is kept. *)
Definition prog (A : Type) : Type := State → result A * State.

Global Instance prog_ret : MRet prog := λ A a st, (Ok a, st).
Global Instance prog_bind : MBind prog := λ A B f m st,
  match m st with
  | (Ok a, st') => f a st'
  | (Throw e, st') => (Throw e, st')
  end.

Definition update (f : State → State) : prog unit := λ st, (Ok tt, f st).
Definition lift {A} (r : result A) : prog A := λ st, (r, st).

(** [try { body } catch (e) { handler } finally { final }]; the handler
    and the final block of [fetchNFTs] only set state. *)
Definition try_catch_finally (body : prog unit)
    (handler : string → State → State) (final : State → State) : prog unit :=
  λ st,
    match body st with
    | (Ok _, st') => (Ok tt, final st')
    | (Throw e, st') => (Ok tt, final (handler e st'))
    end.

(** [balance.toNumber()]: throws beyond [Number.MAX_SAFE_INTEGER]. *)
Definition MAX_SAFE_INTEGER : N := 2 ^ 53 - 1.

Definition toNumber (balance : N) : result nat :=
  if (balance <=? MAX_SAFE_INTEGER)%N then Ok (N.to_nat balance)
  else Throw "overflow".

(** The callback of [validNFTs.map] (lines 121-128). *)
Definition withPrice (w : World) (nft : NFT) : NFT :=
  let priceData := fetchOpenSeaPrice w (tokenId nft) in
  {| tokenId := tokenId nft;
     name := name nft;
     image := image nft;
     description := description nft;
     attributes := attributes nft;
     collectionName := collectionName nft;
     collectionSymbol := collectionSymbol nft;
     lowestPrice := fst <$> priceData;
     currency := priceData ≫= snd |}.

(** The results of the metadata promises, in index order (line 115), and
    those that are not [null] (line 116). *)
Definition nftResults (w : World) (n : nat)
    (collectionName collectionSymbol : string) : list (option NFT) :=
  (λ i, fetchNFTMetadata w i collectionName collectionSymbol) <$> seq 0 n.

Definition validNFTs (results : list (option NFT)) : list NFT :=
  omap id results.

Definition fetchNFTs_try (w : World) : prog unit :=
  update (setLoading true);;
  update (setError None);;
  collectionName ← lift (contract_name w);
  collectionSymbol ← lift (contract_symbol w);
  balance ← lift (contract_balanceOf w);
  n ← lift (toNumber balance);
  let valid := validNFTs (nftResults w n collectionName collectionSymbol) in
  update (setPriceLoading true);;
  let nftsWithPrices := withPrice w <$> valid in
  update (setNfts nftsWithPrices).

Definition fetch_error : string :=
  "Failed to fetch NFTs. Please check your contract address and wallet address.".

Definition fetchNFTs (w : World) : prog unit :=
  try_catch_finally (fetchNFTs_try w)
    (λ _, setError (Some fetch_error))
    (λ st, setPriceLoading false (setLoading false st)).

(** The state a run leaves behind. *)
Definition run (w : World) (st : State) : State := snd (fetchNFTs w st).

(** ** Arrays in place

    [Array.prototype.sort] reorders the array it is called on, while the
    spread [[...a]] and [Array.prototype.filter] build a new array; the
    store makes the difference visible. *)

Definition loc : Type := positive.
Abbreviation store := (gmap loc (list NFT)).

Definition alloc (h : store) (v : list NFT) : store * loc :=
  let a := fresh (dom h) in (<[a := v]> h, a).

(** [[...a]] *)
Definition spread (h : store) (a : loc) : store * loc :=
  alloc h (h !!! a).

(** [a.filter(p)] *)
Definition array_filter (p : NFT → bool) (h : store) (a : loc) : store * loc :=
  alloc h (List.filter p (h !!! a)).

(** [Array.prototype.sort] is stable, and puts [x] after [y] when the
    comparator's answer on [(x, y)] is positive ([NaN] counts as [0]).
    For a consistent comparator the standard fixes the outcome; it is
    computed here by stable insertion. *)
Definition positive_answer (v : number) : bool :=
  match v with
  | NaN => false
  | Num q => bool_decide (0 < q)%Qc
  end.

Fixpoint insert_by (cmp : NFT → NFT → number) (x : NFT) (l : list NFT) : list NFT :=
  match l with
  | [] => [x]
  | y :: l' =>
      if positive_answer (cmp x y) then y :: insert_by cmp x l'
      else x :: y :: l'
  end.

Definition sort (cmp : NFT → NFT → number) (l : list NFT) : list NFT :=
  foldr (insert_by cmp) [] l.

(** The comparator does not ask for [x] after [y]. *)
Definition not_after (cmp : NFT → NFT → number) (x y : NFT) : Prop :=
  positive_answer (cmp x y) = false.

(** [a.sort(cmp)]: same array, new contents. *)
Definition array_sort (cmp : NFT → NFT → number) (h : store) (a : loc) : store * loc :=
  (<[a := sort cmp (h !!! a)]> h, a).

(** ** [filteredAndSortedNFTs] (lines 170-190) *)

Inductive SortBy : Type := by_name | by_tokenId | by_collection | by_price.

(** [!x] for a possibly absent number. *)
Definition no_price (p : option number) : bool :=
  match p with
  | None => true
  | Some x => negb (truthy x)
  end.

(** The [case 'price'] branch of the comparator (lines 181-186). *)
Definition compare_price (a b : NFT) : number :=
  if no_price (lowestPrice a) && no_price (lowestPrice b) then Num 0
  else if no_price (lowestPrice a) then Num 1
  else if no_price (lowestPrice b) then Num (-1)
  else match lowestPrice a, lowestPrice b with
       | Some x, Some y => number_sub x y
       | _, _ => NaN
       end.

Section View.
(** The runtime's [String.prototype.toLowerCase],
    [String.prototype.localeCompare] and [parseInt]. *)
Variable toLowerCase : string → string.
Variable localeCompare : string → string → number.
Variable parseInt : string → number.

Definition matches (filter_text : string) (nft : NFT) : bool :=
  includes (toLowerCase (name nft)) (toLowerCase filter_text)
  || includes (toLowerCase (description nft)) (toLowerCase filter_text).

Definition compare (sortBy : SortBy) (a b : NFT) : number :=
  match sortBy with
  | by_name => localeCompare (name a) (name b)
  | by_collection =>
      localeCompare (or_else (collectionName a) EmptyString)
                    (or_else (collectionName b) EmptyString)
  | by_price => compare_price a b
  | by_tokenId => number_sub (parseInt (tokenId a)) (parseInt (tokenId b))
  end.

(** The view as a value. *)
Definition view (sortBy : SortBy) (filter_text : string) (l : list NFT) : list NFT :=
  sort (compare sortBy) (List.filter (matches filter_text) l).

(** The view as the source computes it, on the array [a] of the state. *)
Definition filteredAndSortedNFTs (sortBy : SortBy) (filter_text : string)
    (h : store) (a : loc) : store * loc :=
  let '(h1, a1) := spread h a in
  let '(h2, a2) := array_filter (matches filter_text) h1 a1 in
  array_sort (compare sortBy) h2 a2.
End View.

(** ** Sample data *)

Definition eth (d : Z) : PaymentToken :=
  {| decimals := Some (Val d); symbol := Some (Val "ETH") |}.

Definition listing (amount : Z) (d : Z) : SellOrder :=
  {| current_price := Some amount; payment_token_contract := Some (eth d) |}.

Definition answer (orders : list SellOrder) : result Response :=
  Ok {| ok := true; json := Ok {| sell_orders := Some orders |} |}.

Definition plain_doc : Metadata :=
  {| md_name := Some "Cat"; md_image := Some "ipfs://img";
     md_description := Some "a cat"; md_attributes := None |}.

(** A wallet of [n] tokens with the given enumeration, token documents
    and marketplace; the collection reads succeed. *)
Definition wallet (n : N) (enum : nat → result N)
    (doc : string → result Metadata) (market : string → result Response) : World :=
  {| contract_name := Ok "Cats";
     contract_symbol := Ok "CAT";
     contract_balanceOf := Ok n;
     contract_tokenOfOwnerByIndex := enum;
     contract_tokenURI := λ t, Ok ("ipfs://meta/" +:+ toString t);
     fetch_json := doc;
     fetch_opensea := market |}.

Definition tokens_from_10 (i : nat) : result N := Ok (10 + N.of_nat i)%N.

(** The tokens are [10, 11, ..]; every call succeeds and nothing is
    listed for sale. *)
Definition calm (n : N) : World :=
  wallet n tokens_from_10 (λ _, Ok plain_doc) (λ _, answer []).

Definition with_opensea (w : World) (f : string → result Response) : World :=
  {| contract_name := contract_name w;
     contract_symbol := contract_symbol w;
     contract_balanceOf := contract_balanceOf w;
     contract_tokenOfOwnerByIndex := contract_tokenOfOwnerByIndex w;
     contract_tokenURI := contract_tokenURI w;
     fetch_json := fetch_json w;
     fetch_opensea := f |}.

Definition st0 : State :=
  {| nfts := []; loading := true; error := None; priceLoading := false |}.

(** The number [n / d]. *)
Definition ratio (n : Z) (d : positive) : number := Num (Q2Qc (n # d)).

(** ** Outcomes of a run *)

(** The reads that come before any per-item work (lines 103-111), in
    source order. *)
Definition prerequisites (w : World) : result (string * string * nat) :=
  collectionName ← contract_name w;
  collectionSymbol ← contract_symbol w;
  balance ← contract_balanceOf w;
  n ← toNumber balance;
  Ok (collectionName, collectionSymbol, n).

Definition completed (l : list NFT) : State :=
  {| nfts := l; loading := false; error := None; priceLoading := false |}.

Definition aborted (st : State) : State :=
  {| nfts := nfts st; loading := false; error := Some fetch_error;
     priceLoading := false |}.


(** ** The lowest listing, in the specification's words

    The minimum, over all returned listings, of the amount divided by
    [10^decimals]; used only to compare [fetchOpenSeaPrice] with it. *)
Definition converted (o : SellOrder) : option number :=
  match current_price o, payment_token_contract o with
  | Some cp, Some t => Some (number_div (parseFloat cp) (Math_pow10 (decimals t)))
  | _, _ => None
  end.

Definition cheaper (a b : number) : number :=
  match a, b with
  | Num x, Num y => if decide (x ≤ y)%Qc then a else b
  | _, _ => NaN
  end.

Fixpoint lowest_listing (orders : list SellOrder) : option number :=
  match orders with
  | [] => None
  | o :: rest =>
      match converted o, lowest_listing rest with
      | Some p, Some m => Some (cheaper p m)
      | Some p, None => Some p
      | None, m => m
      end
  end.

Definition three_listings : list SellOrder :=
  [listing 500 2; listing 200 2; listing 800 2].

(** ** Sorting keys *)

(** The key the price comparator orders by: a truthy price, or nothing
    ([undefined], [0] and [NaN] alike). *)
Definition price_key (e : NFT) : option Qc :=
  match lowestPrice e with
  | Some (Num p) => if decide (p = 0%Qc) then None else Some p
  | _ => None
  end.

(** [x] stands before [y] somewhere in [l]. *)
Definition before (x y : NFT) (l : list NFT) : Prop :=
  ∃ l1 l2 l3, l = l1 ++ x :: l2 ++ y :: l3.

Definition priced (id : string) (p : Z) : NFT :=
  {| tokenId := id; name := "some"; image := EmptyString; description := EmptyString;
     attributes := None; collectionName := None; collectionSymbol := None;
     lowestPrice := Some (ratio p 1); currency := Some (Val "ETH") |}.

Definition unpriced (id : string) : NFT :=
  {| tokenId := id; name := "none"; image := EmptyString; description := EmptyString;
     attributes := None; collectionName := None; collectionSymbol := None;
     lowestPrice := None; currency := None |}.

(** Order of the keys: truthy prices ascending, then the rest. *)
Definition key_le (a b : option Qc) : Prop :=
  match a, b with
  | Some x, Some y => (x ≤ y)%Qc
  | None, Some _ => False
  | _, None => True
  end.

Definition same_key (k : option Qc) (e : NFT) : bool :=
  bool_decide (price_key e = k).

(** The answer of a marketplace that lists nothing. *)
Definition no_listings : result Response := answer [].

(** ** Owned tokens and failure records *)

Definition throws {A} (r : result A) : bool :=
  match r with
  | Ok _ => false
  | Throw _ => true
  end.

(** The identifier the enumeration yields at index [i], if any. *)
Definition enumerated (w : World) (i : nat) : option N :=
  match contract_tokenOfOwnerByIndex w i with
  | Ok t => Some t
  | Throw _ => None
  end.

(** The identifiers the enumeration yields for the indices below [n],
    in index order. *)
Definition owned (w : World) (n : nat) : list N :=
  omap (enumerated w) (seq 0 n).

(** The metadata document of token [t] can be fetched. *)
Definition resolves (w : World) (t : N) : bool :=
  match contract_tokenURI w t with
  | Ok u => negb (throws (fetch_json w (ipfs u)))
  | Throw _ => false
  end.

(** The entries built for the indices [idx], in that order. *)
Definition entries_for (w : World) (collectionName collectionSymbol : string)
    (idx : list nat) : list NFT :=
  validNFTs ((λ i, fetchNFTMetadata w i collectionName collectionSymbol) <$> idx).

(** The failure record of the specification's data model. The source
    declares no such type and keeps no such list: a failed item is
    written to the console and dropped (lines 116 and 164-167). *)
Inductive Stage : Type := ownership | metadata | price.

Global Instance Stage_eq_dec : EqDecision Stage.
Proof. solve_decision. Defined.

Record EnrichmentFailure : Type := {
  failed : N;
  stage : Stage;
  cause : string
}.

Definition entries_of (t : N) (l : list NFT) : nat :=
  length (filter (λ e, tokenId e = toString t) l).

Definition failures_of (s : Stage) (t : N) (fs : list EnrichmentFailure) : nat :=
  length (filter (λ f, stage f = s ∧ failed f = t) fs).

(** What C2 asks of the failures a result records. *)
Definition partitioned (record : State → list EnrichmentFailure) : Prop :=
  ∀ w st cn cs n, prerequisites w = Ok (cn, cs, n) →
    (∀ t, t ∈ owned w n →
       (entries_of t (nfts (run w st)) = 1
        ∧ failures_of metadata t (record (run w st)) = 0)
       ∨ (entries_of t (nfts (run w st)) = 0
          ∧ failures_of metadata t (record (run w st)) = 1))
    ∧ (∀ f, f ∈ record (run w st) → stage f = metadata → failed f ∈ owned w n).

(** What C7 asks of them: one ownership failure for each index whose
    enumeration call throws, and no other. *)
Definition ownership_recorded (record : State → list EnrichmentFailure) : Prop :=
  ∀ w st cn cs n, prerequisites w = Ok (cn, cs, n) →
    ∀ i, failures_of ownership (N.of_nat i) (record (run w st)) =
         if decide (i < n ∧ throws (contract_tokenOfOwnerByIndex w i) = true)
         then 1 else 0.

(** Sample wallets. *)
Definition unreachable_doc : World :=
  wallet 1 tokens_from_10 (λ _, Throw "network") (λ _, answer []).

Definition gap_at_1 (i : nat) : result N :=
  match i with
  | 0 => Ok 10%N
  | 1 => Throw "call exception"
  | _ => Ok 12%N
  end.

Definition no_gap (i : nat) : result N :=
  match i with
  | 0 => Ok 10%N
  | _ => Ok 12%N
  end.

Definition three_with_gap : World :=
  wallet 3 gap_at_1 (λ _, Ok plain_doc) (λ _, answer []).

Definition two_without_gap : World :=
  wallet 2 no_gap (λ _, Ok plain_doc) (λ _, answer []).

(** ** Failed price resolution *)

(** The first listing lacks a field the price is read from. The
    specification names the decimals and the symbol as required. *)
Definition lacks_amount (o : SellOrder) : Prop :=
  current_price o = None
  ∨ payment_token_contract o = None
  ∨ ∃ t, payment_token_contract o = Some t ∧ decimals t = None.

Definition lacks_symbol (o : SellOrder) : Prop :=
  ∃ t, payment_token_contract o = Some t ∧ symbol t = None.

(** Price resolution for [id] fails: the request fails or is refused,
    its body cannot be read, nothing is listed, or the first listing is
    [incomplete]. *)
Inductive price_failure (incomplete : SellOrder → Prop) (w : World) (id : string)
  : Prop :=
| request_failed e :
    fetch_opensea w id = Throw e → price_failure incomplete w id
| request_refused r :
    fetch_opensea w id = Ok r → ok r = false → price_failure incomplete w id
| body_unreadable r e :
    fetch_opensea w id = Ok r → json r = Throw e → price_failure incomplete w id
| nothing_listed r data :
    fetch_opensea w id = Ok r → json r = Ok data → first_order data = None →
    price_failure incomplete w id
| listing_incomplete r data o :
    fetch_opensea w id = Ok r → json r = Ok data → first_order data = Some o →
    incomplete o → price_failure incomplete w id.

(** The entry with no price attached. *)
Definition without_price (nft : NFT) : NFT :=
  {| tokenId := tokenId nft;
     name := name nft;
     image := image nft;
     description := description nft;
     attributes := attributes nft;
     collectionName := collectionName nft;
     collectionSymbol := collectionSymbol nft;
     lowestPrice := None;
     currency := None |}.

(** A listing of 500 base units with two decimals and no symbol. *)
Definition nameless_token : SellOrder :=
  {| current_price := Some 500%Z;
     payment_token_contract :=
       Some {| decimals := Some (Val 2%Z); symbol := None |} |}.

Definition nameless_market : World :=
  with_opensea (calm 1) (λ _, answer [nameless_token]).

(** A listing of 500 base units whose decimals and symbol are [null]. *)
Definition null_token : SellOrder :=
  {| current_price := Some 500%Z;
     payment_token_contract :=
       Some {| decimals := Some Null; symbol := Some Null |} |}.

Definition null_market : World :=
  with_opensea (calm 1) (λ _, answer [null_token]).

(** A document whose name is the empty string. *)
Definition unnamed_doc : Metadata :=
  {| md_name := Some EmptyString; md_image := None;
     md_description := None; md_attributes := None |}.

Definition unnamed_cat : World :=
  wallet 1 tokens_from_10 (λ _, Ok unnamed_doc) (λ _, answer []).

(** A token listed for nothing. *)
Definition free_listing : World :=
  with_opensea (calm 1) (λ _, answer [listing 0 18]).

(** A contract whose [name()] call fails. *)
Definition no_contract : World :=
  {| contract_name := Throw "call exception";
     contract_symbol := Ok "CAT";
     contract_balanceOf := Ok 1%N;
     contract_tokenOfOwnerByIndex := tokens_from_10;
     contract_tokenURI := λ t, Ok ("ipfs://meta/" +:+ toString t);
     fetch_json := λ _, Ok plain_doc;
     fetch_opensea := λ _, answer [] |}.

(** The entry built from [plain_doc] for token [t]. *)
Definition cat (t : N) : NFT :=
  {| tokenId := toString t; name := "Cat"; image := "https://ipfs.io/ipfs/img";
     description := "a cat"; attributes := None;
     collectionName := Some "Cats"; collectionSymbol := Some "CAT";
     lowestPrice := None; currency := None |}.

Definition shelf : list NFT := [priced "1" 5; unpriced "2"; priced "3" 2].

(** ** [formatPrice] (lines 192-195) *)

Section Display.
(** The runtime's [Number.prototype.toFixed]. *)
Variable toFixed : number → nat → string.

(** [`${c}`] for a string that may be [null]. *)
Definition in_template (c : nullable string) : string :=
  match c with
  | Null => "null"
  | Val s => s
  end.

(** Only [undefined] is tested for: a [null] currency is printed. *)
Definition formatPrice (price : option number)
    (currency : option (nullable string)) : string :=
  match price, currency with
  | Some p, Some c => toFixed p 3 +:+ " " +:+ in_template c
  | _, _ => "Not for sale"
  end.
End Display.

(** A wallet of three tokens of which the second is listed at 1.5 ETH
    and the third at 0.25 ETH. *)
Definition two_offers (id : string) : result Response :=
  if decide (id = "11") then answer [listing 1500 3]
  else if decide (id = "12") then answer [listing 25 2]
  else answer [].

Definition market_day : World := with_opensea (calm 3) two_offers.

(** * The catalog browser of [src/src/App.tsx] *)

(** ** [Array.prototype.sort] and [Array.prototype.slice] on any array *)

Section ArraySort.
Context {A : Type}.
Variable cmp : A → A → number.

(** The stable insertion of [insert_by], for arrays of any element. *)
Fixpoint insert_with (x : A) (l : list A) : list A :=
  match l with
  | [] => [x]
  | y :: l' =>
      if positive_answer (cmp x y) then y :: insert_with x l'
      else x :: y :: l'
  end.

Definition sort_with (l : list A) : list A := foldr insert_with [] l.

(** The comparator does not ask for [x] after [y]. *)
Definition not_after_with (x y : A) : Prop := positive_answer (cmp x y) = false.
End ArraySort.

(** [x] stands before [y] somewhere in [l]. *)
Definition precedes {A} (x y : A) (l : list A) : Prop :=
  ∃ l1 l2 l3, l = l1 ++ x :: l2 ++ y :: l3.

(** [l.slice(start, stop)] for indices that are not negative. *)
Definition slice {A} (start stop : nat) (l : list A) : list A :=
  take (stop - start) (drop start l).

(** [Math.ceil(n / d)] for whole numbers. *)
Definition ceil_div (n d : nat) : nat := (n + d - 1) / d.

Module Catalog.

(** A row of the catalog sheet, as far as the component reads it; a
    column that the row lacks is [undefined]. *)
Record NFT : Type := {
  Type_ : option string;
  MintDate : option string;
  Platform : option string;
  CollectionName : option string;
  Collaborator : option string;
  Link : option string;
  IPFSImage : option string
}.

Inductive SortField : Type :=
  by_collection_name | by_mint_date | by_platform | by_type.
Inductive SortOrder : Type := asc | desc.
Inductive ViewMode : Type := grid | list_view.

Global Instance SortField_eq_dec : EqDecision SortField.
Proof. solve_decision. Defined.

Abbreviation store := (gmap loc (list NFT)).

(** The component state; [nfts] and [filteredNfts] refer to arrays of
    the store. *)
Record State : Type := {
  nfts : loc;
  filteredNfts : loc;
  searchTerm : string;
  platformFilter : string;
  typeFilter : string;
  collaboratorFilter : string;
  loading : bool;
  page : nat;
  sortField : SortField;
  sortOrder : SortOrder;
  viewMode : ViewMode;
  showFilters : bool
}.

Definition itemsPerPage : nat := 12.

Definition with_filtered (a : loc) (p : nat) (st : State) : State :=
  {| nfts := nfts st; filteredNfts := a; searchTerm := searchTerm st;
     platformFilter := platformFilter st; typeFilter := typeFilter st;
     collaboratorFilter := collaboratorFilter st; loading := loading st;
     page := p; sortField := sortField st; sortOrder := sortOrder st;
     viewMode := viewMode st; showFilters := showFilters st |}.

Definition with_sort (f : SortField) (o : SortOrder) (st : State) : State :=
  {| nfts := nfts st; filteredNfts := filteredNfts st;
     searchTerm := searchTerm st; platformFilter := platformFilter st;
     typeFilter := typeFilter st; collaboratorFilter := collaboratorFilter st;
     loading := loading st; page := page st; sortField := f; sortOrder := o;
     viewMode := viewMode st; showFilters := showFilters st |}.

Definition alloc (h : store) (v : list NFT) : store * loc :=
  let a := fresh (dom h) in (<[a := v]> h, a).

(** [a.filter(p)]: a new array. *)
Definition array_filter (p : NFT → bool) (h : store) (a : loc) : store * loc :=
  alloc h (List.filter p (h !!! a)).

(** [a.sort(cmp)]: the same array, reordered. *)
Definition array_sort (cmp : NFT → NFT → number) (h : store) (a : loc) : store :=
  <[a := sort_with cmp (h !!! a)]> h.

(** [row[sortField]] *)
Definition field (f : SortField) (row : NFT) : option string :=
  match f with
  | by_collection_name => CollectionName row
  | by_mint_date => MintDate row
  | by_platform => Platform row
  | by_type => Type_ row
  end.

Section Effect.
(** The runtime's [String.prototype.toLowerCase], the comparison [<] of
    strings, and [new Date(s).getTime()]. *)
Variable toLowerCase : string → string.
Variable string_lt : string → string → bool.
Variable getTime : string → number.

(** [v?.toLowerCase().includes(term.toLowerCase())]: an [undefined]
    column ends the chain with [undefined], which is falsy. *)
Definition column_includes (v : option string) (term : string) : bool :=
  match v with
  | Some s => includes (toLowerCase s) (toLowerCase term)
  | None => false
  end.

(** The callback of the search filter (lines 90-95). *)
Definition search_match (term : string) (row : NFT) : bool :=
  column_includes (CollectionName row) term
  || column_includes (Platform row) term
  || column_includes (Type_ row) term
  || column_includes (Collaborator row) term.

(** [v === wanted] *)
Definition column_is (v : option string) (wanted : string) : bool :=
  bool_decide (v = Some wanted).

(** The comparator of lines 114-129. *)
Definition compare (f : SortField) (o : SortOrder) (a b : NFT) : number :=
  let aValue := or_else (field f a) EmptyString in
  let bValue := or_else (field f b) EmptyString in
  if decide (f = by_mint_date) then
    let aDate := getTime aValue in
    let bDate := getTime bValue in
    match o with
    | asc => number_sub aDate bDate
    | desc => number_sub bDate aDate
    end
  else if string_lt aValue bValue then
    match o with asc => Num (-1) | desc => Num 1 end
  else if string_lt bValue aValue then
    match o with asc => Num 1 | desc => Num (-1) end
  else Num 0.

(** One of the four conditional filters: [if (term) filtered =
    filtered.filter(p)]. *)
Definition filter_if (term : string) (p : NFT → bool) (hf : store * loc)
  : store * loc :=
  if truthy_string term then array_filter p hf.1 hf.2 else hf.

(** The filtering and sorting effect (lines 85-133). *)
Definition applyFilters (h : store) (st : State) : store * State :=
  let hf := (h, nfts st) in
  let hf := filter_if (searchTerm st) (search_match (searchTerm st)) hf in
  let hf := filter_if (platformFilter st)
              (λ row, column_is (Platform row) (platformFilter st)) hf in
  let hf := filter_if (typeFilter st)
              (λ row, column_is (Type_ row) (typeFilter st)) hf in
  let hf := filter_if (collaboratorFilter st)
              (λ row, column_is (Collaborator row) (collaboratorFilter st)) hf in
  let h' := array_sort (compare (sortField st) (sortOrder st)) hf.1 hf.2 in
  (h', with_filtered hf.2 1 st).

(** What the four filters let through. *)
Definition passes (st : State) (row : NFT) : bool :=
  (negb (truthy_string (searchTerm st)) || search_match (searchTerm st) row)
  && (negb (truthy_string (platformFilter st))
      || column_is (Platform row) (platformFilter st))
  && (negb (truthy_string (typeFilter st))
      || column_is (Type_ row) (typeFilter st))
  && (negb (truthy_string (collaboratorFilter st))
      || column_is (Collaborator row) (collaboratorFilter st)).
End Effect.

(** No search term and no filter is set. *)
Definition unfiltered (st : State) : Prop :=
  searchTerm st = EmptyString ∧ platformFilter st = EmptyString
  ∧ typeFilter st = EmptyString ∧ collaboratorFilter st = EmptyString.

(** [[...new Set(values)]]: the distinct values, in the order of their
    first occurrence. *)
Fixpoint distinct (seen : list (option string)) (values : list (option string))
  : list (option string) :=
  match values with
  | [] => []
  | v :: rest =>
      if decide (v ∈ seen) then distinct seen rest
      else v :: distinct (v :: seen) rest
  end.

(** [.filter(Boolean)] on strings that may be [undefined]. *)
Definition truthy_value (v : option string) : option string :=
  match v with
  | Some s => if truthy_string s then Some s else None
  | None => None
  end.

(** The option lists of lines 135-137, for a column. *)
Definition options (column : NFT → option string) (rows : list NFT) : list string :=
  omap truthy_value (distinct [] (column <$> rows)).

Definition platforms (rows : list NFT) : list string := options Platform rows.
Definition types (rows : list NFT) : list string := options Type_ rows.
Definition collaborators (rows : list NFT) : list string :=
  options Collaborator rows.

(** [getImageUrl] (lines 139-144). *)
Definition getImageUrl (row : NFT) : string :=
  match IPFSImage row with
  | Some cid =>
      if truthy_string cid then "https://ipfs.io/ipfs/" +:+ cid
      else "https://via.placeholder.com/300x300?text=No+Image"
  | None => "https://via.placeholder.com/300x300?text=No+Image"
  end.

(** [handleSortChange] (lines 146-153). *)
Definition handleSortChange (f : SortField) (st : State) : State :=
  if decide (sortField st = f)
  then with_sort (sortField st)
         (match sortOrder st with asc => desc | desc => asc end) st
  else with_sort f asc st.

(** [clearFilters] (lines 163-170). *)
Definition clearFilters (st : State) : State :=
  {| nfts := nfts st; filteredNfts := filteredNfts st;
     searchTerm := EmptyString; platformFilter := EmptyString;
     typeFilter := EmptyString; collaboratorFilter := EmptyString;
     loading := loading st; page := page st;
     sortField := by_mint_date; sortOrder := desc;
     viewMode := viewMode st; showFilters := showFilters st |}.

(** [paginatedNfts] and [pageCount] (lines 160-161), for the rows of the
    filtered array. For page [0] the source's start index is negative
    and counts from the end; the slice is empty there as it is here. *)
Definition paginatedNfts (p : nat) (rows : list NFT) : list NFT :=
  slice ((p - 1) * itemsPerPage) (p * itemsPerPage) rows.

Definition pageCount (rows : list NFT) : nat :=
  ceil_div (length rows) itemsPerPage.

(** Sample rows. *)
Definition row (name date platform type : string) : NFT :=
  {| Type_ := Some type; MintDate := Some date;
     Platform := Some platform; CollectionName := Some name;
     Collaborator := None; Link := None; IPFSImage := Some "QmCat" |}.

Definition sheet : list NFT :=
  [row "Nimbuds" "2021-04-01" "OpenSea" "1/1";
   row "Cloudy" "2021-03-01" "Foundation" "Edition";
   row "Between" "2022-01-01" "OpenSea" "Edition"].

Definition fresh_state (a : loc) : State :=
  {| nfts := a; filteredNfts := a; searchTerm := EmptyString;
     platformFilter := EmptyString; typeFilter := EmptyString;
     collaboratorFilter := EmptyString; loading := false; page := 3;
     sortField := by_mint_date; sortOrder := desc;
     viewMode := grid; showFilters := false |}.

(** [setPlatformFilter(p)] *)
Definition setPlatformFilter (p : string) (st : State) : State :=
  {| nfts := nfts st; filteredNfts := filteredNfts st;
     searchTerm := searchTerm st; platformFilter := p;
     typeFilter := typeFilter st; collaboratorFilter := collaboratorFilter st;
     loading := loading st; page := page st;
     sortField := sortField st; sortOrder := sortOrder st;
     viewMode := viewMode st; showFilters := showFilters st |}.

End Catalog.

(** What holds of the store and of the array being filtered while
    [applyFilters] goes through its conditional filters, starting from
    the store [h] whose array [a] holds [l]: the array holds the rows
    that the filters applied so far ([q]) let through, the arrays of [h]
    are as they were, and the array is a new one as soon as a filter has
    been applied ([touched]). *)
Definition filtering (h : Catalog.store) (a : loc) (l : list Catalog.NFT)
    (q : Catalog.NFT → bool) (touched : bool) (hf : Catalog.store * loc) : Prop :=
  hf.1 !! hf.2 = Some (List.filter q l)
  ∧ (∀ b, is_Some (h !! b) → hf.1 !! b = h !! b)
  ∧ (if touched then h !! hf.2 = None else hf = (h, a)).

(** Some search term or filter is set. *)
Definition filter_set (st : Catalog.State) : bool :=
  truthy_string (Catalog.searchTerm st)
  || truthy_string (Catalog.platformFilter st)
  || truthy_string (Catalog.typeFilter st)
  || truthy_string (Catalog.collaboratorFilter st).

(** The string a row is sorted by: [row[sortField] || ''] (lines
    115-116). *)
Definition sort_value (f : Catalog.SortField) (row : Catalog.NFT) : string :=
  or_else (Catalog.field f row) EmptyString.

(** ** Sample runtime functions *)

(** Strings compared character code by character code. *)
Definition code_lt (a b : string) : bool :=
  match String_as_OT.compare a b with
  | Lt => true
  | _ => false
  end.

(** The times, in milliseconds, of the dates of [Catalog.sheet]. *)
Definition sample_time (row : Catalog.NFT) : Qc :=
  if decide (Catalog.MintDate row = Some "2021-03-01")
  then Q2Qc (1614556800000 # 1)
  else if decide (Catalog.MintDate row = Some "2021-04-01")
  then Q2Qc (1617235200000 # 1)
  else Q2Qc (1640995200000 # 1).

Definition sample_getTime (s : string) : number :=
  if decide (s = "2021-03-01") then Num (Q2Qc (1614556800000 # 1))
  else if decide (s = "2021-04-01") then Num (Q2Qc (1617235200000 # 1))
  else if decide (s = "2022-01-01") then Num (Q2Qc (1640995200000 # 1))
  else NaN.

(** The numbers of the identifiers of [shelf]. *)
Definition sample_parseInt (s : string) : number :=
  if decide (s = "1") then Num (Q2Qc (1 # 1))
  else if decide (s = "2") then Num (Q2Qc (2 # 1))
  else if decide (s = "3") then Num (Q2Qc (3 # 1))
  else NaN.

Definition sample_num (e : NFT) : Qc :=
  match sample_parseInt (tokenId e) with
  | Num n => n
  | NaN => Q2Qc 0
  end.

Definition same_text (s : string) : string := s.
Definition no_collation (a b : string) : number := Num (Q2Qc 0).
Definition sample_toFixed (x : number) (digits : nat) : string := "1.500".

Definition sample_store : Catalog.store := {[ 1%positive := Catalog.sheet ]}.

(** ** The entry lists the viewer can hold

    The state starts with the empty list (line 39), and the list is
    written only by [fetchNFTs] (line 131). *)
Definition initial : State :=
  {| nfts := []; loading := true; error := None; priceLoading := false |}.

Inductive reachable : State → Prop :=
| reachable_initial : reachable initial
| reachable_run (w : World) (st : State) : reachable st → reachable (run w st).

Global Instance number_eq_dec : EqDecision number.
Proof. solve_decision. Defined.

(** The entries whose price is [p]. *)
Definition same_price (p : option number) (e : NFT) : bool :=
  bool_decide (lowestPrice e = p).
(** * Properties *)

(** ** Runs of [fetchNFTs] *)

Ltac unfold_run :=
  unfold run, fetchNFTs, try_catch_finally, fetchNFTs_try, prerequisites,
    mbind, prog_bind, result_bind, lift, update in *.

Lemma fetchNFTs_completed w st cn cs n :
  prerequisites w = Ok (cn, cs, n) →
  fetchNFTs w st =
    (Ok tt, completed (withPrice w <$> validNFTs (nftResults w n cn cs))).
Proof.
  unfold_run.
  destruct (contract_name w); [|discriminate].
  destruct (contract_symbol w); [|discriminate].
  destruct (contract_balanceOf w) as [b|]; [|discriminate].
  destruct (toNumber b); [|discriminate].
  intros [= -> -> ->]. reflexivity.
Qed.

Lemma fetchNFTs_aborted w st e :
  prerequisites w = Throw e →
  fetchNFTs w st = (Ok tt, aborted st).
Proof.
  unfold_run.
  destruct (contract_name w); [|reflexivity].
  destruct (contract_symbol w); [|reflexivity].
  destruct (contract_balanceOf w) as [b|]; [|reflexivity].
  destruct (toNumber b); [discriminate|reflexivity].
Qed.

Lemma run_completed w st cn cs n :
  prerequisites w = Ok (cn, cs, n) →
  run w st = completed (withPrice w <$> validNFTs (nftResults w n cn cs)).
Proof. intros H. unfold run. by rewrite (fetchNFTs_completed _ _ _ _ _ H). Qed.

Lemma run_aborted w st e :
  prerequisites w = Throw e → run w st = aborted st.
Proof. intros H. unfold run. by rewrite (fetchNFTs_aborted _ _ _ H). Qed.

(** ** Prices *)

Lemma Num_eq (x y : Qc) : (this x == this y)%Q → Num x = Num y.
Proof. intros H. f_equal. by apply Qc_is_canon. Qed.

Lemma Num_neq (x y : Qc) : ¬ (this x == this y)%Q → Num x ≠ Num y.
Proof. intros H [= ->]. by apply H. Qed.

(** Only the first listing of the answer is read. *)
Lemma fetchOpenSeaPrice_first_only w tokenId o rest :
  fetch_opensea w tokenId = answer (o :: rest) →
  fetchOpenSeaPrice w tokenId =
    fetchOpenSeaPrice (with_opensea w (λ _, answer [o])) tokenId.
Proof.
  intros H. unfold fetchOpenSeaPrice, fetchOpenSeaPrice_try. simpl.
  rewrite H. reflexivity.
Qed.

(** C1. With listings [500, 200, 800] and [decimals = 2],
    [fetchOpenSeaPrice] returns 5, the converted price of the first
    listing, whereas the lowest listing is 2. *)
Theorem fetchOpenSeaPrice_first_not_lowest :
  let w := with_opensea (calm 1) (λ _, answer three_listings) in
  fetchOpenSeaPrice w "10" = Some (ratio 5 1, Some (Val "ETH"))
  ∧ lowest_listing three_listings = Some (ratio 2 1)
  ∧ ratio 5 1 ≠ ratio 2 1.
Proof.
  split_and!.
  - vm_compute. do 2 f_equal. by apply Num_eq.
  - vm_compute. f_equal. by apply Num_eq.
  - apply Num_neq. vm_compute. discriminate.
Qed.

(** ** Sorting *)

Section Sorting.
Variable cmp : NFT → NFT → number.

Lemma insert_by_perm x l : insert_by cmp x l ≡ₚ x :: l.
Proof.
  induction l as [|y l IH]; simpl; [done|].
  destruct (positive_answer (cmp x y)); [|done].
  rewrite IH. apply Permutation_swap.
Qed.

Lemma sort_perm l : sort cmp l ≡ₚ l.
Proof.
  induction l as [|x l IH]; simpl; [done|].
  rewrite insert_by_perm. by rewrite IH.
Qed.

(** Stability: elements that the comparator never puts after one
    another keep their order. *)
Lemma insert_by_filter (P : NFT → bool) x l :
  (∀ y, y ∈ l → P x = true → P y = true → not_after cmp x y) →
  List.filter P (insert_by cmp x l) = List.filter P (x :: l).
Proof.
  induction l as [|y l IH]; intros Hle; simpl; [done|].
  destruct (positive_answer (cmp x y)) eqn:Hxy; [|done].
  simpl. rewrite IH by (intros; apply Hle; [by right|done..]).
  simpl. destruct (P x) eqn:Hx; [|done].
  destruct (P y) eqn:Hy; [|done].
  assert (not_after cmp x y) as Hl by (apply Hle; [by left|done..]).
  unfold not_after in Hl. congruence.
Qed.

Lemma sort_filter (P : NFT → bool) l :
  (∀ x y, P x = true → P y = true → not_after cmp x y) →
  List.filter P (sort cmp l) = List.filter P l.
Proof.
  intros Hle. induction l as [|x l IH]; simpl; [done|].
  rewrite insert_by_filter by (intros; by apply Hle).
  simpl. by rewrite IH.
Qed.

Hypothesis cmp_trans :
  ∀ x y z, not_after cmp x y → not_after cmp y z → not_after cmp x z.
Hypothesis cmp_total : ∀ x y, not_after cmp x y ∨ not_after cmp y x.

Lemma insert_by_sorted x l :
  StronglySorted (not_after cmp) l →
  StronglySorted (not_after cmp) (insert_by cmp x l).
Proof.
  induction l as [|y l IH]; intros Hs; simpl.
  - repeat constructor.
  - apply StronglySorted_inv in Hs as [Hl Hy].
    destruct (positive_answer (cmp x y)) eqn:Hxy.
    + constructor; [by apply IH|].
      rewrite insert_by_perm. constructor; [|done].
      destruct (cmp_total x y) as [H|H]; [|done].
      unfold not_after in H. congruence.
    + constructor; [by constructor|].
      constructor; [done|].
      eapply Forall_impl; [exact Hy|]. intros z Hz.
      by apply cmp_trans with y.
Qed.

Lemma sort_sorted l : StronglySorted (not_after cmp) (sort cmp l).
Proof.
  induction l as [|x l IH]; simpl; [constructor|].
  by apply insert_by_sorted.
Qed.

Lemma sort_before x y l : before x y (sort cmp l) → not_after cmp x y.
Proof.
  intros (l1 & l2 & l3 & Heq).
  pose proof (sort_sorted l) as Hs. rewrite Heq in Hs.
  apply StronglySorted_app in Hs as (_ & _ & Hs).
  apply StronglySorted_inv in Hs as [_ Hs].
  rewrite Forall_forall in Hs. apply Hs.
  rewrite elem_of_app, elem_of_cons. auto.
Qed.
End Sorting.

(** ** The price comparator *)

Lemma no_price_key e : no_price (lowestPrice e) = true ↔ price_key e = None.
Proof.
  unfold no_price, price_key. destruct (lowestPrice e) as [[|p]|]; simpl; try done.
  rewrite negb_true_iff, bool_decide_eq_false.
  destruct (decide (p = 0%Qc)); naive_solver.
Qed.

Lemma price_key_Some e p :
  price_key e = Some p → lowestPrice e = Some (Num p) ∧ p ≠ 0%Qc.
Proof.
  unfold price_key. destruct (lowestPrice e) as [[|p']|]; try done.
  destruct (decide (p' = 0%Qc)); naive_solver.
Qed.

Lemma compare_price_le x y :
  not_after compare_price x y ↔ key_le (price_key x) (price_key y).
Proof.
  unfold not_after, compare_price.
  destruct (price_key x) as [a|] eqn:Hx, (price_key y) as [b|] eqn:Hy; simpl.
  - destruct (no_price (lowestPrice x)) eqn:Nx;
      [apply no_price_key in Nx; congruence|].
    destruct (no_price (lowestPrice y)) eqn:Ny;
      [apply no_price_key in Ny; congruence|].
    apply price_key_Some in Hx as [-> _], Hy as [-> _]. simpl.
    rewrite bool_decide_eq_false. unfold Qcminus.
    by rewrite <- Qclt_minus_iff, <- Qcle_ngt.
  - apply no_price_key in Hy. rewrite Hy.
    destruct (no_price (lowestPrice x)) eqn:Nx;
      [apply no_price_key in Nx; congruence|].
    split; [done|]. intros _. by vm_compute.
  - apply no_price_key in Hx. rewrite Hx.
    destruct (no_price (lowestPrice y)) eqn:Ny;
      [apply no_price_key in Ny; congruence|].
    split; [|done]. by vm_compute.
  - apply no_price_key in Hx, Hy. rewrite Hx, Hy. simpl.
    split; [done|]. intros _. by vm_compute.
Qed.

Lemma key_le_trans a b c : key_le a b → key_le b c → key_le a c.
Proof.
  destruct a, b, c; simpl; try done. apply Qcle_trans.
Qed.

Lemma key_le_total a b : key_le a b ∨ key_le b a.
Proof.
  destruct a as [x|], b as [y|]; simpl; auto.
  destruct (Qc_le_total x y); auto.
Qed.

Lemma key_le_refl a : key_le a a.
Proof. destruct a; simpl; [apply Qcle_refl|done]. Qed.

Lemma compare_price_trans x y z :
  not_after compare_price x y → not_after compare_price y z →
  not_after compare_price x z.
Proof. rewrite !compare_price_le. apply key_le_trans. Qed.

Lemma compare_price_total x y :
  not_after compare_price x y ∨ not_after compare_price y x.
Proof. rewrite !compare_price_le. apply key_le_total. Qed.

Lemma sort_price_before x y l :
  before x y (sort compare_price l) → key_le (price_key x) (price_key y).
Proof.
  intros H. apply compare_price_le.
  eapply sort_before; eauto using compare_price_trans, compare_price_total.
Qed.

Lemma sort_price_stable k l :
  List.filter (same_key k) (sort compare_price l) = List.filter (same_key k) l.
Proof.
  apply sort_filter. intros x y Hx Hy.
  apply bool_decide_eq_true in Hx, Hy.
  apply compare_price_le. rewrite Hx, Hy. apply key_le_refl.
Qed.

(** On any list, sorting by price is a stable sort on [price_key]: the
    view holds the filtered entries, every entry whose price is
    [undefined] or [0] comes after every entry with a non-zero price,
    the latter are in ascending order, and entries with the same key
    keep their input order. *)
Lemma view_by_price_sorted
    (toLowerCase : string → string) (localeCompare : string → string → number)
    (parseInt : string → number) (filter_text : string) (l : list NFT) :
  let shown := List.filter (matches toLowerCase filter_text) l in
  let v := view toLowerCase localeCompare parseInt by_price filter_text l in
  v ≡ₚ shown
  ∧ (∀ x y, before x y v → price_key x = None → price_key y = None)
  ∧ (∀ x y p r, before x y v → price_key x = Some p → price_key y = Some r →
       (p ≤ r)%Qc)
  ∧ (∀ k, List.filter (same_key k) v = List.filter (same_key k) shown).
Proof.
  intros shown v. subst v. unfold view. fold shown. simpl.
  change (compare localeCompare parseInt by_price) with compare_price.
  split_and!.
  - apply sort_perm.
  - intros x y Hb Hx. apply sort_price_before in Hb. rewrite Hx in Hb.
    by destruct (price_key y).
  - intros x y p r Hb Hx Hy. apply sort_price_before in Hb.
    by rewrite Hx, Hy in Hb.
  - intros k. apply sort_price_stable.
Qed.

(** C10. A first listing whose converted price is [0] makes
    [fetchOpenSeaPrice] answer [null], as an answer without listings
    does; and the price comparator answers on an entry priced [0] as on
    the same comparison with an entry without price, so that sorting
    never leaves it before an entry with a positive price. *)
Theorem zero_price_is_no_price
    (w : World) (id : string) (r : Response) (data : AssetData)
    (o : SellOrder) (cp : Z) (x x' y : NFT) (p : Qc) (l : list NFT) :
  fetch_opensea w id = Ok r → ok r = true → json r = Ok data →
  first_order data = Some o → current_price o = Some cp →
  listing_price o cp = Ok (Num 0%Qc) →
  lowestPrice x = Some (Num 0%Qc) → lowestPrice x' = None →
  lowestPrice y = Some (Num p) → (0 < p)%Qc →
  fetchOpenSeaPrice w id = None
  ∧ fetchOpenSeaPrice (with_opensea w (λ _, no_listings)) id = None
  ∧ (∀ b, compare_price x b = compare_price x' b
          ∧ compare_price b x = compare_price b x')
  ∧ compare_price x y = Num 1%Qc
  ∧ ¬ before x y (sort compare_price l).
Proof.
  intros Hf Hok Hj Ho Hcp Hp Hx Hx' Hy Hpos.
  assert (price_key x = None) as Kx by (unfold price_key; by rewrite Hx).
  assert (price_key y = Some p) as Ky.
  { unfold price_key. rewrite Hy. destruct (decide (p = 0%Qc)) as [->|]; [|done].
    by destruct (Qclt_not_eq _ _ Hpos). }
  split_and!.
  - unfold fetchOpenSeaPrice, fetchOpenSeaPrice_try. rewrite Hf. simpl.
    rewrite Hok, Hj. simpl. rewrite Ho, Hcp, Hp. reflexivity.
  - reflexivity.
  - intros b. unfold compare_price. rewrite Hx, Hx'. simpl.
    destruct (no_price (lowestPrice b)); done.
  - unfold compare_price. rewrite Hx, Hy. simpl.
    destruct (decide (p ≠ 0%Qc)) as [Hne|Hne].
    + by rewrite (bool_decide_eq_true_2 _ Hne).
    + destruct Hne. intros ->. by destruct (Qclt_not_eq _ _ Hpos).
  - intros Hb. apply sort_price_before in Hb. by rewrite Kx, Ky in Hb.
Qed.

(** ** Which tokens reach the result *)

Lemma fetchNFTMetadata_tokenId w i cn cs :
  tokenId <$> fetchNFTMetadata w i cn cs =
  toString <$> (enumerated w i ≫= λ t, if resolves w t then Some t else None).
Proof.
  unfold fetchNFTMetadata, fetchNFTMetadata_try, enumerated, resolves.
  destruct (contract_tokenOfOwnerByIndex w i) as [t|]; simpl; [|done].
  destruct (contract_tokenURI w t) as [u|]; simpl; [|done].
  by destruct (fetch_json w (ipfs u)).
Qed.

Lemma entries_for_tokenIds w cn cs idx :
  tokenId <$> entries_for w cn cs idx =
  toString <$> List.filter (resolves w) (omap (enumerated w) idx).
Proof.
  unfold entries_for, validNFTs.
  induction idx as [|i idx IH]; simpl; [done|].
  pose proof (fetchNFTMetadata_tokenId w i cn cs) as Hi.
  destruct (enumerated w i) as [t|]; simpl in *.
  - destruct (resolves w t); simpl in *;
      destruct (fetchNFTMetadata w i cn cs); simplify_eq/=; by f_equal.
  - destruct (fetchNFTMetadata w i cn cs); simplify_eq/=; done.
Qed.

Lemma withPrice_tokenId w (l : list NFT) : tokenId <$> (withPrice w <$> l) = tokenId <$> l.
Proof. rewrite <- list_fmap_compose. by apply list_fmap_ext. Qed.

Lemma run_tokenIds w st cn cs n :
  prerequisites w = Ok (cn, cs, n) →
  tokenId <$> nfts (run w st) = toString <$> List.filter (resolves w) (owned w n).
Proof.
  intros H. rewrite (run_completed _ _ _ _ _ H). simpl.
  rewrite withPrice_tokenId. apply entries_for_tokenIds.
Qed.

Lemma entries_of_tokenIds t (l : list NFT) :
  entries_of t l = length (filter (λ s, s = toString t) (tokenId <$> l)).
Proof.
  unfold entries_of. induction l as [|e l IH]; [done|].
  rewrite fmap_cons, !filter_cons.
  destruct (decide (tokenId e = toString t)); simpl; [f_equal|]; apply IH.
Qed.

Lemma count_toString t (l : list N) :
  length (filter (λ s, s = toString t) (toString <$> l)) =
  length (filter (λ t', t' = t) l).
Proof.
  induction l as [|a l IH]; [done|].
  rewrite fmap_cons, !filter_cons.
  destruct (decide (a = t)) as [->|Hne].
  - rewrite decide_True by done. simpl. f_equal. apply IH.
  - rewrite decide_False; [apply IH|].
    unfold toString. intros Heq. by apply (inj pretty) in Heq.
Qed.

Lemma count_NoDup (t : N) (l : list N) :
  NoDup l → length (filter (λ t', t' = t) l) = if decide (t ∈ l) then 1 else 0.
Proof.
  induction 1 as [|a l Ha Hl IH].
  - destruct (decide (t ∈ [])) as [Hin|_]; [|done].
    by apply not_elem_of_nil in Hin.
  - rewrite filter_cons.
    destruct (decide (a = t)) as [->|Hne], (decide (t ∈ l)) as [Hin|Hin];
      simpl; rewrite IH.
    + done.
    + rewrite decide_True; [done|]. by left.
    + rewrite decide_True; [done|]. by right.
    + rewrite decide_False; [done|]. rewrite elem_of_cons.
      intros [Heq|Hl']; [by subst|done].
Qed.

Lemma NoDup_List_filter (p : N → bool) (l : list N) :
  NoDup l → NoDup (List.filter p l).
Proof.
  induction 1 as [|a l Ha Hl IH]; simpl; [constructor|].
  destruct (p a); [|done]. constructor; [|done].
  rewrite list_elem_of_In, filter_In, <- list_elem_of_In. by intros [Hl' _].
Qed.

(** C2, as the source has it. When the enumerated identifiers are
    distinct, an owned token whose metadata resolves has exactly one
    entry in the result and one whose metadata fails has none; every
    entry is that of an owned token whose metadata resolved. The result
    holds entries only. *)
Theorem entries_are_resolved_tokens
    (w : World) (st : State) (cn cs : string) (n : nat) :
  prerequisites w = Ok (cn, cs, n) →
  NoDup (owned w n) →
  (∀ t, t ∈ owned w n →
     entries_of t (nfts (run w st)) = if resolves w t then 1 else 0)
  ∧ (∀ e, e ∈ nfts (run w st) →
       ∃ t, t ∈ owned w n ∧ resolves w t = true ∧ tokenId e = toString t).
Proof.
  intros Hp Hnd. pose proof (run_tokenIds w st cn cs n Hp) as Hids. split.
  - intros t Ht. rewrite entries_of_tokenIds, Hids, count_toString.
    rewrite count_NoDup by by apply NoDup_List_filter.
    destruct (resolves w t) eqn:Hr.
    + rewrite decide_True; [done|].
      rewrite list_elem_of_In, filter_In, <- list_elem_of_In. done.
    + rewrite decide_False; [done|].
      rewrite list_elem_of_In, filter_In. intros [_ Hr']. congruence.
  - intros e He.
    assert (tokenId e ∈ tokenId <$> nfts (run w st)) as Hin
      by (apply list_elem_of_fmap; eauto).
    rewrite Hids in Hin. apply list_elem_of_fmap in Hin as (t & Heq & Hin).
    rewrite list_elem_of_In, filter_In, <- list_elem_of_In in Hin.
    destruct Hin as [Hin Hr]. by exists t.
Qed.

(** C2, as stated, fails: a wallet whose only token has an unreachable
    document and an empty wallet leave the same result, so nothing read
    off the result can record the failed token of the first without
    recording a token the second does not own. *)
Lemma no_failure_partition : ¬ ∃ record, partitioned record.
Proof.
  intros [record H].
  assert (run unreachable_doc st0 = run (calm 0) st0) as Heq by reflexivity.
  destruct (H unreachable_doc st0 "Cats" "CAT" 1 eq_refl) as [H1 _].
  destruct (H (calm 0) st0 "Cats" "CAT" 0 eq_refl) as [_ H2].
  rewrite <- Heq in H2.
  destruct (H1 10%N) as [[He _]|[_ Hf]].
  - by left.
  - by vm_compute in He.
  - unfold failures_of in Hf.
    destruct (filter _ (record (run unreachable_doc st0))) as [|f fs] eqn:Hfs;
      [done|].
    assert (f ∈ filter (λ f, stage f = metadata ∧ failed f = 10%N)
                  (record (run unreachable_doc st0))) as Hin
      by (rewrite Hfs; by left).
    apply list_elem_of_filter in Hin as [[Hs _] Hin].
    specialize (H2 f Hin Hs). by apply not_elem_of_nil in H2.
Qed.

Lemma entries_for_app w cn cs idx1 idx2 :
  entries_for w cn cs (idx1 ++ idx2) =
  entries_for w cn cs idx1 ++ entries_for w cn cs idx2.
Proof. unfold entries_for, validNFTs. by rewrite fmap_app, omap_app. Qed.

Lemma fetchNFTMetadata_enumeration_throws w i cn cs e :
  contract_tokenOfOwnerByIndex w i = Throw e →
  fetchNFTMetadata w i cn cs = None.
Proof.
  intros H. unfold fetchNFTMetadata, fetchNFTMetadata_try. by rewrite H.
Qed.

(** C7, as the source has it. An index whose enumeration call throws is
    skipped and the run goes on without a run-level error: the result
    holds the entries of the indices before it followed by those of the
    indices after it. No failure is recorded. *)
Theorem enumeration_failure_skips_index
    (w : World) (st : State) (cn cs : string) (n i : nat) (e : string) :
  prerequisites w = Ok (cn, cs, n) →
  i < n →
  contract_tokenOfOwnerByIndex w i = Throw e →
  error (run w st) = None
  ∧ loading (run w st) = false
  ∧ nfts (run w st) =
      withPrice w <$> (entries_for w cn cs (seq 0 i)
                       ++ entries_for w cn cs (seq (S i) (n - S i))).
Proof.
  intros Hp Hi He. rewrite (run_completed _ _ _ _ _ Hp). simpl.
  split_and!; [done..|]. f_equal.
  change (validNFTs (nftResults w n cn cs)) with (entries_for w cn cs (seq 0 n)).
  replace n with (i + S (n - S i)) at 1 by lia.
  rewrite seq_app. simpl. rewrite entries_for_app. f_equal.
  unfold entries_for at 1. simpl.
  by rewrite (fetchNFTMetadata_enumeration_throws _ _ _ _ _ He).
Qed.

(** C7, as stated, fails: a wallet of three whose index 1 throws and a
    wallet of the two other tokens leave the same result, so it cannot
    tell that an enumeration call failed. *)
Lemma no_ownership_record : ¬ ∃ record, ownership_recorded record.
Proof.
  intros [record H].
  assert (run three_with_gap st0 = run two_without_gap st0) as Heq
    by reflexivity.
  pose proof (H three_with_gap st0 "Cats" "CAT" 3 eq_refl 1) as H1.
  pose proof (H two_without_gap st0 "Cats" "CAT" 2 eq_refl 1) as H2.
  rewrite <- Heq in H2. rewrite H1 in H2.
  by vm_compute in H2.
Qed.

(** ** Price resolution and the entries *)

Lemma price_failure_null w id :
  price_failure lacks_amount w id → fetchOpenSeaPrice w id = None.
Proof.
  unfold fetchOpenSeaPrice, fetchOpenSeaPrice_try.
  intros [e H|r H Hok|r e H Hj|r data H Hj Ho|r data o H Hj Ho Hinc];
    rewrite H; simpl; try done.
  - by rewrite Hok.
  - destruct (ok r); simpl; [|done]. by rewrite Hj.
  - destruct (ok r); simpl; [|done]. rewrite Hj. simpl. by rewrite Ho.
  - destruct (ok r); simpl; [|done]. rewrite Hj. simpl. rewrite Ho.
    unfold listing_price, payment_token.
    destruct Hinc as [Hc|[Hc|(t & Ht & Hd)]].
    + by rewrite Hc.
    + rewrite Hc. by destruct (current_price o).
    + rewrite Ht. destruct (current_price o); [|done]. simpl. by rewrite Hd.
Qed.

Lemma withPrice_null w e :
  fetchOpenSeaPrice w (tokenId e) = None → withPrice w e = without_price e.
Proof. intros H. unfold withPrice. by rewrite H. Qed.

Lemma fetchOpenSeaPrice_listed w id r data o cp t p :
  fetch_opensea w id = Ok r → ok r = true → json r = Ok data →
  first_order data = Some o → current_price o = Some cp →
  payment_token_contract o = Some t → listing_price o cp = Ok p →
  fetchOpenSeaPrice w id = if truthy p then Some (p, symbol t) else None.
Proof.
  intros Hr Hok Hj Ho Hcp Ht Hp.
  unfold fetchOpenSeaPrice, fetchOpenSeaPrice_try.
  rewrite Hr. simpl. rewrite Hok. simpl. rewrite Hj. simpl.
  rewrite Ho, Hcp, Hp. simpl. destruct (truthy p); [|done].
  unfold payment_token. by rewrite Ht.
Qed.

(** C3, as the source has it. Attaching prices keeps every entry, at its
    place and with its other fields. When the price request fails,
    nothing is listed, or the first listing lacks its price, its payment
    token or the decimals field ([undefined]; a [null] one is read as
    the exponent [0]), the entry has neither price nor currency. A
    missing symbol is no failure: when the first listing has an amount
    and a payment token, the entry carries the converted
    amount whenever that is a number other than [0], together with the
    listing's symbol as the currency, which is absent when the symbol
    is; a converted amount that is [0] or no number leaves the entry
    without price and currency. *)
Theorem price_failure_keeps_entry
    (w : World) (st : State) (cn cs : string) (n k : nat) (e : NFT) :
  prerequisites w = Ok (cn, cs, n) →
  validNFTs (nftResults w n cn cs) !! k = Some e →
  length (nfts (run w st)) = length (validNFTs (nftResults w n cn cs))
  ∧ (∃ e', nfts (run w st) !! k = Some e'
           ∧ without_price e' = without_price e)
  ∧ (price_failure lacks_amount w (tokenId e) →
     nfts (run w st) !! k = Some (without_price e))
  ∧ (∀ r data o cp t p,
       fetch_opensea w (tokenId e) = Ok r → ok r = true → json r = Ok data →
       first_order data = Some o → current_price o = Some cp →
       payment_token_contract o = Some t → listing_price o cp = Ok p →
       (truthy p = true →
        ∃ e', nfts (run w st) !! k = Some e'
              ∧ lowestPrice e' = Some p
              ∧ currency e' = symbol t
              ∧ (symbol t = None → currency e' = None)
              ∧ without_price e' = without_price e)
       ∧ (truthy p = false →
          nfts (run w st) !! k = Some (without_price e))).
Proof.
  intros Hp Hk. rewrite (run_completed _ _ _ _ _ Hp). simpl.
  split_and!.
  - apply length_fmap.
  - exists (withPrice w e). by rewrite list_lookup_fmap, Hk.
  - intros Hf. rewrite list_lookup_fmap, Hk. simpl. f_equal.
    by apply withPrice_null, price_failure_null.
  - intros r data o cp t p Hr Hok Hj Ho Hcp Ht Hlp.
    pose proof (fetchOpenSeaPrice_listed _ _ _ _ _ _ _ _ Hr Hok Hj Ho Hcp Ht Hlp)
      as Hf.
    rewrite list_lookup_fmap, Hk. simpl. split; intros Htr; rewrite Htr in Hf.
    + exists (withPrice w e). split; [done|]. unfold withPrice. simpl.
      rewrite Hf. simpl. by split_and!.
    + f_equal. by apply withPrice_null.
Qed.

(** C3, as stated, fails for a listing without symbol, which the
    specification counts among the failures: the entry keeps the amount
    5 and only its currency is absent. *)
Lemma missing_symbol_keeps_amount :
  ¬ (∀ (w : World) (st : State) (cn cs : string) (n : nat) (e : NFT),
       prerequisites w = Ok (cn, cs, n) →
       e ∈ validNFTs (nftResults w n cn cs) →
       price_failure (λ o, lacks_amount o ∨ lacks_symbol o) w (tokenId e) →
       without_price e ∈ nfts (run w st)).
Proof.
  intros H.
  pose (e := {| tokenId := "10"; name := "Cat";
                image := "https://ipfs.io/ipfs/img"; description := "a cat";
                attributes := None; collectionName := Some "Cats";
                collectionSymbol := Some "CAT"; lowestPrice := None;
                currency := None |}).
  specialize (H nameless_market st0 "Cats" "CAT" 1 e eq_refl).
  assert (without_price e ∈ nfts (run nameless_market st0)) as Hin.
  { apply H.
    - by left.
    - eapply listing_incomplete; [reflexivity..|].
      right. by eexists. }
  apply list_elem_of_singleton in Hin. discriminate Hin.
Qed.

Example nameless_market_result :
  (λ e, (tokenId e, lowestPrice e, currency e)) <$> nfts (run nameless_market st0)
  = [("10", Some (ratio 5 1), None)].
Proof. vm_compute. do 4 f_equal. by apply Num_eq. Qed.

(** A listing whose decimals and symbol are [null] is priced at its
    amount and displayed with the currency [null]. *)
Example null_market_result :
  (λ e, (tokenId e, lowestPrice e, currency e)) <$> nfts (run null_market st0)
  = [("10", Some (ratio 500 1), Some Null)].
Proof. vm_compute. do 4 f_equal; by apply Num_eq. Qed.

Example null_currency_displayed (toFixed : number → nat → string) :
  formatPrice toFixed (Some (ratio 500 1)) (Some Null)
  = toFixed (ratio 500 1) 3 +:+ " null".
Proof. reflexivity. Qed.

(** ** Content addresses *)

Lemma prefix_app s t : String.prefix s (s +:+ t) = true.
Proof.
  induction s as [|c s IH]; simpl; [by destruct t|].
  destruct (ascii_dec c c); [done|congruence].
Qed.

Lemma drop_chars_app s t : drop_chars (String.length s) (s +:+ t) = t.
Proof. induction s as [|c s IH]; simpl; [by destruct t|done]. Qed.

Lemma replace_absent pat rep s : includes s pat = false → replace pat rep s = s.
Proof.
  induction s as [|c s IH]; simpl; intros H; apply orb_false_iff in H as [Hp Hs].
  - by rewrite Hp.
  - rewrite Hp. f_equal. by apply IH.
Qed.

Lemma replace_unfold pat rep s :
  replace pat rep s =
  if String.prefix pat s then rep +:+ drop_chars (String.length pat) s
  else match s with
       | EmptyString => EmptyString
       | String c s' => String c (replace pat rep s')
       end.
Proof. by destruct s. Qed.

Lemma replace_prefix pat rep s : replace pat rep (pat +:+ s) = rep +:+ s.
Proof. by rewrite replace_unfold, prefix_app, drop_chars_app. Qed.

Lemma prefix_cons c1 s1 c2 s2 :
  String.prefix (String c1 s1) (String c2 s2) =
  if ascii_dec c1 c2 then String.prefix s1 s2 else false.
Proof. reflexivity. Qed.

Lemma append_nil s : EmptyString +:+ s = s.
Proof. reflexivity. Qed.

Lemma append_cons c s t : String c s +:+ t = String c (s +:+ t).
Proof. reflexivity. Qed.

(** One character of the comparison of a suffix of the scheme with
    [pre +:+ "ipfs://" +:+ post]. *)
Ltac scheme_step pre H :=
  destruct pre as [|? pre];
  [ rewrite append_nil, append_cons, prefix_cons;
    match goal with
    | |- context [ascii_dec ?a ?b] =>
        let E := fresh in destruct (ascii_dec a b) as [E|]; [discriminate E|done]
    end
  | rewrite append_cons; rewrite prefix_cons in H |- *;
    match goal with
    | |- context [ascii_dec ?a ?b] => destruct (ascii_dec a b) as [<-|]; [|done]
    end ].

(** The scheme has no border: it cannot start inside an occurrence that
    begins earlier. *)
Lemma scheme_not_earlier c pre post :
  String.prefix "ipfs://" (String c pre) = false →
  String.prefix "ipfs://" (String c (pre +:+ "ipfs://" +:+ post)) = false.
Proof.
  intros H. rewrite prefix_cons in H |- *.
  destruct (ascii_dec "i" c) as [<-|]; [|done].
  do 6 scheme_step pre H.
  by destruct pre.
Qed.

Lemma ipfs_first pre post :
  includes pre "ipfs://" = false →
  ipfs (pre +:+ "ipfs://" +:+ post) = pre +:+ "https://ipfs.io/ipfs/" +:+ post.
Proof.
  unfold ipfs. induction pre as [|c pre IH]; intros H.
  - rewrite !append_nil. apply replace_prefix.
  - change (includes (String c pre) "ipfs://")
      with (String.prefix "ipfs://" (String c pre) || includes pre "ipfs://") in H.
    apply orb_false_iff in H as [Hp Hs].
    change (String c pre +:+ "ipfs://" +:+ post)
      with (String c (pre +:+ "ipfs://" +:+ post)).
    rewrite replace_unfold, (scheme_not_earlier _ _ _ Hp).
    change (String c pre +:+ "https://ipfs.io/ipfs/" +:+ post)
      with (String c (pre +:+ "https://ipfs.io/ipfs/" +:+ post)).
    f_equal. by apply IH.
Qed.

(** C5, as the source has it. The resolver replaces the first occurrence
    of ["ipfs://"], wherever it stands, by the gateway path and keeps
    what surrounds it; an input that starts with the scheme becomes the
    gateway path followed by the identifier, and an input in which the
    scheme does not occur, the empty string among them, is returned as
    it is. Being a total function, it never fails. *)
Theorem ipfs_replaces_first_occurrence (pre post s : string) :
  includes pre "ipfs://" = false →
  includes s "ipfs://" = false →
  ipfs (pre +:+ "ipfs://" +:+ post) = pre +:+ "https://ipfs.io/ipfs/" +:+ post
  ∧ ipfs ("ipfs://" +:+ post) = "https://ipfs.io/ipfs/" +:+ post
  ∧ ipfs s = s
  ∧ ipfs EmptyString = EmptyString.
Proof.
  intros Hpre Hs. split_and!.
  - by apply ipfs_first.
  - apply (ipfs_first EmptyString post). reflexivity.
  - by apply replace_absent.
  - reflexivity.
Qed.

(** C5, as stated, fails for an input that holds the scheme further in:
    it does not start with ["ipfs://"], yet it is rewritten. *)
Lemma ipfs_rewrites_inside :
  ¬ (∀ s, String.prefix "ipfs://" s = false → ipfs s = s).
Proof.
  intros H. specialize (H "https://x.y/?u=ipfs://abc" eq_refl).
  discriminate H.
Qed.

Example ipfs_inside :
  ipfs "https://x.y/?u=ipfs://abc" = "https://x.y/?u=https://ipfs.io/ipfs/abc".
Proof. reflexivity. Qed.

(** ** Metadata *)

(** C8, as the source has it. The entry's name is the document's name
    unless that is absent or the empty string, in which case it is
    ["#"] followed by the token identifier; the description is the
    document's, or the empty string; the attributes are the document's,
    absent if it has none. *)
Theorem metadata_defaults
    (w : World) (i : nat) (cn cs : string) (t : N) (u : string) (doc : Metadata) :
  contract_tokenOfOwnerByIndex w i = Ok t →
  contract_tokenURI w t = Ok u →
  fetch_json w (ipfs u) = Ok doc →
  ∃ e, fetchNFTMetadata w i cn cs = Some e
       ∧ tokenId e = toString t
       ∧ name e = match md_name doc with
                  | Some s => if decide (s = EmptyString) then "#" +:+ toString t else s
                  | None => "#" +:+ toString t
                  end
       ∧ description e = default EmptyString (md_description doc)
       ∧ attributes e = md_attributes doc.
Proof.
  intros Ht Hu Hd. unfold fetchNFTMetadata, fetchNFTMetadata_try.
  rewrite Ht. simpl. rewrite Hu. simpl. rewrite Hd. simpl.
  eexists. split; [reflexivity|]. simpl. split_and!; try done.
  - by destruct (md_name doc) as [[|c s]|].
  - by destruct (md_description doc) as [[|c s]|].
Qed.

(** C8, as stated, fails for a document whose name is present and
    empty: the entry is named ["#10"], not with the empty string. *)
Lemma empty_name_replaced :
  ¬ (∀ (w : World) (i : nat) (cn cs : string) (t : N) (u : string)
       (doc : Metadata) (e : NFT) (s : string),
       contract_tokenOfOwnerByIndex w i = Ok t →
       contract_tokenURI w t = Ok u →
       fetch_json w (ipfs u) = Ok doc →
       fetchNFTMetadata w i cn cs = Some e →
       md_name doc = Some s →
       name e = s).
Proof.
  intros H.
  specialize (H unnamed_cat 0 "Cats" "CAT" 10%N "ipfs://meta/10" unnamed_doc
                _ EmptyString eq_refl eq_refl eq_refl eq_refl eq_refl).
  discriminate H.
Qed.

Example unnamed_cat_name :
  name <$> fetchNFTMetadata unnamed_cat 0 "Cats" "CAT" = Some "#10".
Proof. reflexivity. Qed.

(** ** Fatal and per-item errors *)

Lemma prerequisite_throws w :
  throws (contract_name w) = true ∨ throws (contract_symbol w) = true
  ∨ throws (contract_balanceOf w) = true →
  ∃ e, prerequisites w = Throw e.
Proof.
  unfold prerequisites.
  destruct (contract_name w); simpl; [|by eauto].
  destruct (contract_symbol w); simpl; [|by eauto].
  destruct (contract_balanceOf w); simpl; [|by eauto].
  intros [?|[?|?]]; done.
Qed.

(** C6. When the name, symbol or balance read fails, the run ends with
    the one run-level error message and stores no entries (the list of
    the state is the one it had before); and no error leaves
    [fetchNFTs]: it always returns, once the prerequisite reads have
    succeeded the run-level error stays unset, and what a metadata or
    price request throws ends as [null] for that item. *)
Theorem prerequisite_failure_aborts (w : World) (st : State) :
  fst (fetchNFTs w st) = Ok tt
  ∧ (throws (contract_name w) = true ∨ throws (contract_symbol w) = true
     ∨ throws (contract_balanceOf w) = true →
     run w st = aborted st)
  ∧ (∀ cn cs n, prerequisites w = Ok (cn, cs, n) → error (run w st) = None)
  ∧ (∀ i cn cs e, fetchNFTMetadata_try w i cn cs = Throw e →
       fetchNFTMetadata w i cn cs = None)
  ∧ (∀ id e, fetchOpenSeaPrice_try w id = Throw e →
       fetchOpenSeaPrice w id = None).
Proof.
  split_and!.
  - destruct (prerequisites w) as [[[cn cs] n]|e] eqn:Hp.
    + by rewrite (fetchNFTs_completed _ st _ _ _ Hp).
    + by rewrite (fetchNFTs_aborted _ st _ Hp).
  - intros H. destruct (prerequisite_throws w H) as [e He].
    by apply run_aborted with e.
  - intros cn cs n Hp. by rewrite (run_completed _ _ _ _ _ Hp).
  - intros i cn cs e H. unfold fetchNFTMetadata. by rewrite H.
  - intros id e H. unfold fetchOpenSeaPrice. by rewrite H.
Qed.

(** ** The view and the array of the state *)

Lemma alloc_fresh (h : store) v : h !! (alloc h v).2 = None.
Proof. unfold alloc. simpl. apply not_elem_of_dom, is_fresh. Qed.

Lemma alloc_lookup (h : store) v : (alloc h v).1 !! (alloc h v).2 = Some v.
Proof. unfold alloc. simpl. apply lookup_insert_eq. Qed.

Lemma alloc_old (h : store) v b :
  is_Some (h !! b) → (alloc h v).1 !! b = h !! b.
Proof.
  intros Hb. unfold alloc. simpl. apply lookup_insert_ne.
  intros <-. pose proof (is_fresh (dom h)) as Hf.
  apply not_elem_of_dom in Hf. rewrite Hf in Hb. by destruct Hb.
Qed.

(** C9. Computing the view leaves the array of the state, and every
    other array of the store, as it was: the view is a new array, which
    holds the filtered entries in sorted order. *)
Theorem view_leaves_entries_unchanged
    (toLowerCase : string → string) (localeCompare : string → string → number)
    (parseInt : string → number) (sortBy : SortBy) (filter_text : string)
    (h : store) (a : loc) (l : list NFT) :
  h !! a = Some l →
  let hr := filteredAndSortedNFTs toLowerCase localeCompare parseInt
              sortBy filter_text h a in
  hr.1 !! a = Some l
  ∧ hr.2 ≠ a
  ∧ hr.1 !! hr.2 = Some (view toLowerCase localeCompare parseInt sortBy filter_text l)
  ∧ (∀ b, is_Some (h !! b) → hr.1 !! b = h !! b).
Proof.
  intros Ha hr. subst hr. unfold filteredAndSortedNFTs, spread, array_filter.
  rewrite (lookup_total_correct h a l Ha).
  set (s1 := alloc h l).
  destruct s1 as [h1 a1] eqn:E1.
  assert (h1 !! a1 = Some l) as H11
    by (pose proof (alloc_lookup h l) as H; fold s1 in H; by rewrite E1 in H).
  assert (∀ b, is_Some (h !! b) → h1 !! b = h !! b) as H1old
    by (intros b Hb; pose proof (alloc_old h l b Hb) as H; fold s1 in H;
        by rewrite E1 in H).
  rewrite (lookup_total_correct h1 a1 l H11).
  set (s2 := alloc h1 (List.filter (matches toLowerCase filter_text) l)).
  destruct s2 as [h2 a2] eqn:E2.
  assert (h1 !! a2 = None) as H2fresh
    by (pose proof (alloc_fresh h1 (List.filter (matches toLowerCase filter_text) l)) as H;
        fold s2 in H; by rewrite E2 in H).
  assert (h2 !! a2 = Some (List.filter (matches toLowerCase filter_text) l)) as H22
    by (pose proof (alloc_lookup h1 (List.filter (matches toLowerCase filter_text) l)) as H;
        fold s2 in H; by rewrite E2 in H).
  assert (∀ b, is_Some (h1 !! b) → h2 !! b = h1 !! b) as H2old
    by (intros b Hb;
        pose proof (alloc_old h1 (List.filter (matches toLowerCase filter_text) l) b Hb) as H;
        fold s2 in H; by rewrite E2 in H).
  unfold array_sort. simpl. rewrite (lookup_total_correct h2 a2 _ H22).
  assert (a2 ≠ a) as Hne.
  { intros ->. rewrite H1old in H2fresh by (by rewrite Ha). congruence. }
  split_and!.
  - rewrite lookup_insert_ne by done.
    rewrite H2old by (rewrite H1old; by rewrite Ha).
    rewrite H1old by (by rewrite Ha). done.
  - done.
  - by rewrite lookup_insert_eq.
  - intros b Hb. assert (is_Some (h1 !! b)) as Hb1 by (by rewrite H1old).
    rewrite lookup_insert_ne.
    + rewrite H2old by done. by apply H1old.
    + intros ->. rewrite H2fresh in Hb1. by destruct Hb1.
Qed.

(** * The theorems at sample inputs *)

Lemma entries_are_resolved_tokens_witness :
  prerequisites three_with_gap = Ok ("Cats", "CAT", 3)
  ∧ NoDup (owned three_with_gap 3)
  ∧ entries_of 12 (nfts (run three_with_gap st0)) = 1.
Proof.
  assert (NoDup (owned three_with_gap 3)) as Hnd
    by (apply (bool_decide_unpack _); vm_compute; exact I).
  split_and!; [reflexivity|exact Hnd|].
  apply (proj1 (entries_are_resolved_tokens three_with_gap st0 "Cats" "CAT" 3
                  eq_refl Hnd) 12%N).
  apply (bool_decide_unpack _). vm_compute. exact I.
Defined.

Lemma price_failure_keeps_entry_witness :
  price_failure lacks_amount (calm 1) "10"
  ∧ nfts (run (calm 1) st0) !! 0 = Some (without_price (cat 10))
  ∧ ∃ e', nfts (run nameless_market st0) !! 0 = Some e'
          ∧ lowestPrice e' = Some (ratio 5 1)
          ∧ currency e' = None.
Proof.
  assert (price_failure lacks_amount (calm 1) "10") as Hf
    by (eapply nothing_listed; reflexivity).
  assert (listing_price nameless_token 500 = Ok (ratio 5 1)) as Hp
    by (vm_compute; f_equal; apply Num_eq; reflexivity).
  destruct (price_failure_keeps_entry (calm 1) st0 "Cats" "CAT" 1 0
              (cat 10) eq_refl eq_refl) as (_ & _ & H3 & _).
  destruct (price_failure_keeps_entry nameless_market st0 "Cats" "CAT" 1 0
              (cat 10) eq_refl eq_refl) as (_ & _ & _ & H4).
  destruct (H4 _ _ nameless_token 500%Z _ (ratio 5 1)
              eq_refl eq_refl eq_refl eq_refl eq_refl eq_refl Hp) as [H5 _].
  destruct (H5 eq_refl) as (e' & He' & Hl & _ & Hc & _).
  split_and!; [exact Hf|exact (H3 Hf)|].
  exists e'. split; [exact He'|]. split; [exact Hl|]. apply Hc. reflexivity.
Defined.

Lemma ipfs_replaces_first_occurrence_witness :
  ipfs "https://x.y/?u=ipfs://abc" = "https://x.y/?u=https://ipfs.io/ipfs/abc"
  ∧ ipfs "ipfs://abc123" = "https://ipfs.io/ipfs/abc123"
  ∧ ipfs "https://x.y/cat.json" = "https://x.y/cat.json".
Proof.
  destruct (ipfs_replaces_first_occurrence "https://x.y/?u=" "abc"
              "https://x.y/cat.json" eq_refl eq_refl) as (H1 & _ & H3 & _).
  destruct (ipfs_replaces_first_occurrence EmptyString "abc123" EmptyString eq_refl eq_refl)
    as (_ & H2 & _ & _).
  split_and!; [exact H1|exact H2|exact H3].
Defined.

Lemma enumeration_failure_skips_index_witness :
  error (run three_with_gap st0) = None
  ∧ nfts (run three_with_gap st0) = [cat 10; cat 12].
Proof.
  destruct (enumeration_failure_skips_index three_with_gap st0 "Cats" "CAT" 3 1
              "call exception" eq_refl (le_n_S 1 2 (le_n_S 0 1 (le_0_n 1))) eq_refl)
    as (H1 & _ & H3).
  split; [exact H1|]. rewrite H3. reflexivity.
Defined.

Lemma metadata_defaults_witness :
  ∃ e, fetchNFTMetadata unnamed_cat 0 "Cats" "CAT" = Some e
       ∧ name e = "#10" ∧ description e = EmptyString ∧ attributes e = None.
Proof.
  destruct (metadata_defaults unnamed_cat 0 "Cats" "CAT" 10%N "ipfs://meta/10"
              unnamed_doc eq_refl eq_refl eq_refl) as (e & He & _ & Hn & Hd & Ha).
  exists e. split_and!; [exact He|exact Hn|exact Hd|exact Ha].
Defined.

Lemma prerequisite_failure_aborts_witness :
  run no_contract st0 = aborted st0
  ∧ error (run no_contract st0) = Some fetch_error
  ∧ error (run unreachable_doc st0) = None.
Proof.
  destruct (prerequisite_failure_aborts no_contract st0) as (_ & H2 & _).
  destruct (prerequisite_failure_aborts unreachable_doc st0) as (_ & _ & H3 & _).
  split_and!.
  - apply H2. left. reflexivity.
  - rewrite H2; [reflexivity|]. left. reflexivity.
  - apply (H3 "Cats" "CAT" 1). reflexivity.
Defined.

Lemma view_leaves_entries_unchanged_witness :
  let h : store := {[ 1%positive := shelf ]} in
  let hr := filteredAndSortedNFTs (λ s, s) (λ _ _, Num 0%Qc) (λ _, NaN)
              by_price EmptyString h 1%positive in
  hr.1 !! 1%positive = Some shelf
  ∧ hr.1 !! hr.2 = Some [priced "3" 2; priced "1" 5; unpriced "2"].
Proof.
  intros h hr.
  destruct (view_leaves_entries_unchanged (λ s, s) (λ _ _, Num 0%Qc) (λ _, NaN)
              by_price EmptyString h 1%positive shelf (lookup_singleton_eq _ _))
    as (H1 & _ & H3 & _).
  split; [exact H1|]. fold hr in H3. rewrite H3. reflexivity.
Defined.

Lemma zero_price_is_no_price_witness :
  fetchOpenSeaPrice free_listing "10" = None
  ∧ compare_price (priced "1" 0) (priced "2" 5) = Num 1%Qc
  ∧ ¬ before (priced "1" 0) (priced "2" 5)
        (sort compare_price [priced "1" 0; priced "2" 5]).
Proof.
  assert (listing_price (listing 0 18) 0 = Ok (Num 0%Qc)) as Hp
    by (apply (f_equal Ok), Num_eq; reflexivity).
  assert (0 < Q2Qc (5 # 1))%Qc as Hpos by reflexivity.
  destruct (zero_price_is_no_price free_listing "10" _ _ (listing 0 18) 0
              (priced "1" 0) (unpriced "1") (priced "2" 5) (Q2Qc (5 # 1))
              [priced "1" 0; priced "2" 5]
              eq_refl eq_refl eq_refl eq_refl eq_refl Hp eq_refl eq_refl eq_refl Hpos)
    as (H1 & _ & _ & H4 & H5).
  split_and!; [exact H1|exact H4|exact H5].
Defined.

(** * Further properties of the viewer *)

(** ** What a run stores *)

Lemma or_else_nonempty a b : b ≠ EmptyString → or_else a b ≠ EmptyString.
Proof.
  intros Hb. unfold or_else. destruct a as [[|c s]|]; simpl; done.
Qed.

Lemma fetchNFTMetadata_Some w i cn cs e :
  fetchNFTMetadata w i cn cs = Some e →
  ∃ t u doc,
    contract_tokenOfOwnerByIndex w i = Ok t
    ∧ contract_tokenURI w t = Ok u
    ∧ fetch_json w (ipfs u) = Ok doc
    ∧ tokenId e = toString t
    ∧ name e = or_else (md_name doc) ("#" +:+ toString t)
    ∧ image e = or_else (ipfs <$> md_image doc) EmptyString
    ∧ collectionName e = Some cn
    ∧ collectionSymbol e = Some cs
    ∧ lowestPrice e = None
    ∧ currency e = None.
Proof.
  unfold fetchNFTMetadata, fetchNFTMetadata_try.
  destruct (contract_tokenOfOwnerByIndex w i) as [t|] eqn:Ht; simpl; [|done].
  destruct (contract_tokenURI w t) as [u|] eqn:Hu; simpl; [|done].
  destruct (fetch_json w (ipfs u)) as [doc|] eqn:Hd; simpl; [|done].
  intros [= <-]. exists t, u, doc. by repeat split.
Qed.

Lemma omap_length_le {A B} (f : A → option B) (l : list A) :
  (length (omap f l) ≤ length l)%nat.
Proof.
  induction l as [|x l IH]; [done|].
  change (omap f (x :: l))
    with (match f x with Some y => y :: omap f l | None => omap f l end).
  destruct (f x); simpl length; lia.
Qed.

Lemma validNFTs_elem w n cn cs e :
  e ∈ validNFTs (nftResults w n cn cs) →
  ∃ i, i < n ∧ fetchNFTMetadata w i cn cs = Some e.
Proof.
  unfold validNFTs, nftResults. rewrite list_elem_of_omap.
  intros (o & Ho & Hid). apply list_elem_of_fmap in Ho as (i & -> & Hi).
  apply elem_of_seq in Hi. exists i. split; [lia|done].
Qed.

Lemma run_elem w st cn cs n e :
  prerequisites w = Ok (cn, cs, n) →
  e ∈ nfts (run w st) →
  ∃ i e0, i < n ∧ fetchNFTMetadata w i cn cs = Some e0 ∧ e = withPrice w e0.
Proof.
  intros Hp. rewrite (run_completed _ _ _ _ _ Hp). simpl.
  intros He. apply list_elem_of_fmap in He as (e0 & -> & He0).
  apply validNFTs_elem in He0 as (i & Hi & He0). by exists i, e0.
Qed.

(** X1. A wallet whose balance is zero ends the run with no entries and
    no error, whatever the state was before. *)
Theorem empty_wallet_completes (w : World) (st : State) (cn cs : string) :
  contract_name w = Ok cn →
  contract_symbol w = Ok cs →
  contract_balanceOf w = Ok 0%N →
  run w st = completed [].
Proof.
  intros Hn Hs Hb. apply (run_completed w st cn cs 0).
  unfold prerequisites. by rewrite Hn, Hs, Hb.
Qed.

(** X2. The entries of a result follow the enumeration: their token
    identifiers are those of the owned tokens whose metadata resolves,
    in index order, so there are never more entries than the balance. *)
Theorem entries_in_enumeration_order
    (w : World) (st : State) (cn cs : string) (n : nat) :
  prerequisites w = Ok (cn, cs, n) →
  tokenId <$> nfts (run w st) = toString <$> List.filter (resolves w) (owned w n)
  ∧ (length (nfts (run w st)) ≤ n)%nat.
Proof.
  intros Hp. pose proof (run_tokenIds w st cn cs n Hp) as Hids.
  split; [done|].
  rewrite <- (length_fmap tokenId), Hids, length_fmap.
  etrans; [apply filter_length_le|].
  unfold owned. etrans; [apply omap_length_le|]. by rewrite length_seq.
Qed.

(** X3. Every entry of a result has a name that is not empty, and
    carries the collection name and symbol read at the start of the
    run. *)
Theorem entries_named_and_labelled
    (w : World) (st : State) (cn cs : string) (n : nat) (e : NFT) :
  prerequisites w = Ok (cn, cs, n) →
  e ∈ nfts (run w st) →
  name e ≠ EmptyString
  ∧ collectionName e = Some cn
  ∧ collectionSymbol e = Some cs.
Proof.
  intros Hp He.
  destruct (run_elem _ _ _ _ _ _ Hp He) as (i & e0 & _ & He0 & ->).
  apply fetchNFTMetadata_Some in He0
    as (t & u & doc & _ & _ & _ & _ & Hn & _ & Hc & Hs & _).
  simpl. split_and!; [|done..].
  rewrite Hn. by apply or_else_nonempty.
Qed.

(** ** Prices a run attaches *)

Lemma fetchOpenSeaPrice_Some w id p c :
  fetchOpenSeaPrice w id = Some (p, c) →
  ∃ r data o cp t,
    fetch_opensea w id = Ok r ∧ ok r = true ∧ json r = Ok data
    ∧ first_order data = Some o ∧ current_price o = Some cp
    ∧ payment_token_contract o = Some t
    ∧ p = number_div (parseFloat cp) (Math_pow10 (decimals t))
    ∧ truthy p = true
    ∧ c = symbol t.
Proof.
  unfold fetchOpenSeaPrice, fetchOpenSeaPrice_try.
  destruct (fetch_opensea w id) as [r|] eqn:Hr; simpl; [|done].
  destruct (ok r) eqn:Hok; simpl; [|done].
  destruct (json r) as [data|] eqn:Hj; simpl; [|done].
  destruct (first_order data) as [o|] eqn:Ho; simpl; [|done].
  destruct (current_price o) as [cp|] eqn:Hcp; simpl; [|done].
  unfold listing_price, payment_token.
  destruct (payment_token_contract o) as [t|] eqn:Ht; simpl; [|done].
  destruct (truthy _) eqn:Htr; simpl; [|done].
  intros [= <- <-]. exists r, data, o, cp, t. by repeat split.
Qed.

Lemma zero_amount_falsy d :
  truthy (number_div (parseFloat 0) (Math_pow10 d)) = false.
Proof.
  unfold parseFloat. destruct (Math_pow10 d) as [|s]; [done|].
  unfold number_div, truthy. apply bool_decide_eq_false.
  intros H. apply H. unfold Qcdiv. apply Qcmult_0_l.
Qed.

(** X4. When [fetchOpenSeaPrice] returns a price, the answer was
    accepted and could be read, its first listing has an amount other
    than zero and a payment token with a decimals field, the price is a
    number other than zero, and the currency is that token's symbol as
    it is. *)
Theorem returned_price_is_of_first_listing
    (w : World) (id : string) (p : number) (c : option (nullable string)) :
  fetchOpenSeaPrice w id = Some (p, c) →
  ∃ r data o cp t,
    fetch_opensea w id = Ok r ∧ ok r = true ∧ json r = Ok data
    ∧ first_order data = Some o ∧ current_price o = Some cp
    ∧ payment_token_contract o = Some t
    ∧ decimals t ≠ None
    ∧ cp ≠ 0%Z
    ∧ (∃ q, p = Num q ∧ q ≠ 0%Qc)
    ∧ c = symbol t.
Proof.
  intros H.
  apply fetchOpenSeaPrice_Some in H
    as (r & data & o & cp & t & Hr & Hok & Hj & Ho & Hcp & Ht & Hp & Htr & Hc).
  exists r, data, o, cp, t. split_and!; try done.
  - intros Hd. rewrite Hd in Hp. by rewrite Hp in Htr.
  - intros ->. rewrite Hp, zero_amount_falsy in Htr. done.
  - destruct p as [|q]; [done|]. exists q. split; [done|].
    by apply bool_decide_eq_true in Htr.
Qed.

Lemma withPrice_price w e :
  (lowestPrice (withPrice w e) = None ∧ currency (withPrice w e) = None)
  ∨ ∃ q, lowestPrice (withPrice w e) = Some (Num q) ∧ q ≠ 0%Qc.
Proof.
  unfold withPrice. simpl.
  destruct (fetchOpenSeaPrice w (tokenId e)) as [[p c]|] eqn:H; simpl; [|by left].
  apply fetchOpenSeaPrice_Some in H
    as (r & data & o & cp & t & _ & _ & _ & _ & _ & _ & _ & Htr & _).
  destruct p as [|q]; [done|]. right. exists q. split; [done|].
  by apply bool_decide_eq_true in Htr.
Qed.

Lemma run_price w st cn cs n e :
  prerequisites w = Ok (cn, cs, n) →
  e ∈ nfts (run w st) →
  (lowestPrice e = None ∧ currency e = None)
  ∨ ∃ q, lowestPrice e = Some (Num q) ∧ q ≠ 0%Qc.
Proof.
  intros Hp He.
  destruct (run_elem _ _ _ _ _ _ Hp He) as (i & e0 & _ & _ & ->).
  apply withPrice_price.
Qed.

(** X5. In the result of a run an entry either has neither price nor
    currency, or its price is a number other than zero: a price of [0]
    or [NaN] is never stored, and no currency is stored without a
    price. *)
Theorem stored_price_absent_or_nonzero
    (w : World) (st : State) (cn cs : string) (n : nat) (e : NFT) :
  prerequisites w = Ok (cn, cs, n) →
  e ∈ nfts (run w st) →
  (lowestPrice e = None ∧ currency e = None)
  ∨ ∃ q, lowestPrice e = Some (Num q) ∧ q ≠ 0%Qc.
Proof. apply run_price. Qed.

Lemma before_elem x y (l : list NFT) : before x y l → x ∈ l ∧ y ∈ l.
Proof.
  intros (l1 & l2 & l3 & ->). split.
  - rewrite elem_of_app, elem_of_cons. auto.
  - rewrite elem_of_app, elem_of_cons, elem_of_app, elem_of_cons. auto.
Qed.

Lemma view_elem tl lc pi sortBy ft (l : list NFT) e :
  e ∈ view tl lc pi sortBy ft l → e ∈ l ∧ matches tl ft e = true.
Proof.
  unfold view. rewrite sort_perm, list_elem_of_In, filter_In, <- list_elem_of_In.
  done.
Qed.

Lemma price_key_None_stored e :
  (lowestPrice e = None ∧ currency e = None)
  ∨ (∃ q, lowestPrice e = Some (Num q) ∧ q ≠ 0%Qc) →
  (price_key e = None ↔ lowestPrice e = None)
  ∧ ∀ q, lowestPrice e = Some (Num q) → price_key e = Some q.
Proof.
  unfold price_key. intros [[Hp _]|(q & Hp & Hq)]; rewrite Hp.
  - split; [done|]. intros q' [=].
  - rewrite decide_False by done. split; [done|]. by intros q' [= ->].
Qed.

Lemma reachable_price st e :
  reachable st →
  e ∈ nfts st →
  (lowestPrice e = None ∧ currency e = None)
  ∨ ∃ q, lowestPrice e = Some (Num q) ∧ q ≠ 0%Qc.
Proof.
  induction 1 as [|w st Hst IH]; intros He.
  - by apply elem_of_nil in He.
  - destruct (prerequisites w) as [[[cn cs] n]|err] eqn:Hp.
    + by apply (run_price w st cn cs n).
    + rewrite (run_aborted _ _ _ Hp) in He. by apply IH.
Qed.

Lemma same_price_not_after p x y :
  same_price p x = true → same_price p y = true →
  not_after compare_price x y.
Proof.
  intros Hx Hy. apply bool_decide_eq_true in Hx, Hy.
  apply compare_price_le.
  assert (price_key x = price_key y) as ->
    by (unfold price_key; by rewrite Hx, Hy).
  apply key_le_refl.
Qed.

(** C4. On every entry list the viewer can hold, an entry has no price
    or a number as its price, and sorting by price (the source has one
    direction only) gives the filtered entries with every entry without
    price after every entry with a price, the entries with a price in
    ascending order, and entries of equal price, any two entries without
    price among them, in their input order. *)
Theorem price_sort_of_stored_entries
    (toLowerCase : string → string) (localeCompare : string → string → number)
    (parseInt : string → number) (filter_text : string) (st : State) :
  reachable st →
  let shown := List.filter (matches toLowerCase filter_text) (nfts st) in
  let v := view toLowerCase localeCompare parseInt by_price filter_text (nfts st) in
  (∀ e, e ∈ nfts st → lowestPrice e = None ∨ ∃ q, lowestPrice e = Some (Num q))
  ∧ v ≡ₚ shown
  ∧ (∀ x y, before x y v → lowestPrice x = None → lowestPrice y = None)
  ∧ (∀ x y px py, before x y v →
       lowestPrice x = Some (Num px) → lowestPrice y = Some (Num py) →
       (px ≤ py)%Qc)
  ∧ (∀ p, List.filter (same_price p) v = List.filter (same_price p) shown).
Proof.
  intros Hst shown v. subst v. split_and!.
  - intros e He. destruct (reachable_price _ _ Hst He) as [[H _]|(q & H & _)];
      [by left|right; by exists q].
  - unfold view. apply sort_perm.
  - intros x y Hb Hnx. destruct (before_elem _ _ _ Hb) as [Hx Hy].
    apply view_elem in Hx as [Hx _], Hy as [Hy _].
    destruct (price_key_None_stored x (reachable_price _ _ Hst Hx)) as [Hxn _].
    destruct (price_key_None_stored y (reachable_price _ _ Hst Hy)) as [Hyn _].
    apply sort_price_before in Hb. apply Hyn. apply Hxn in Hnx.
    rewrite Hnx in Hb. by destruct (price_key y).
  - intros x y px py Hb Hpx Hpy. destruct (before_elem _ _ _ Hb) as [Hx Hy].
    apply view_elem in Hx as [Hx _], Hy as [Hy _].
    destruct (price_key_None_stored x (reachable_price _ _ Hst Hx)) as [_ Hxs].
    destruct (price_key_None_stored y (reachable_price _ _ Hst Hy)) as [_ Hys].
    apply sort_price_before in Hb.
    by rewrite (Hxs _ Hpx), (Hys _ Hpy) in Hb.
  - intros p. unfold view. apply sort_filter. intros x y.
    apply same_price_not_after.
Qed.

(** X6. On the entries a run has stored, sorting by price puts every
    entry without price after every entry with a price, and the entries
    with a price in ascending order. *)
Theorem stored_entries_sort_by_price
    (toLowerCase : string → string) (localeCompare : string → string → number)
    (parseInt : string → number) (filter_text : string)
    (w : World) (st : State) (cn cs : string) (n : nat) (x y : NFT) :
  prerequisites w = Ok (cn, cs, n) →
  before x y (view toLowerCase localeCompare parseInt by_price filter_text
                (nfts (run w st))) →
  (lowestPrice x = None → lowestPrice y = None)
  ∧ (∀ px py, lowestPrice x = Some (Num px) → lowestPrice y = Some (Num py) →
       (px ≤ py)%Qc).
Proof.
  intros Hp Hb.
  destruct (before_elem _ _ _ Hb) as [Hx Hy].
  apply view_elem in Hx as [Hx _], Hy as [Hy _].
  destruct (price_key_None_stored x (run_price _ _ _ _ _ _ Hp Hx)) as [Hxn Hxs].
  destruct (price_key_None_stored y (run_price _ _ _ _ _ _ Hp Hy)) as [Hyn Hys].
  apply sort_price_before in Hb. split.
  - intros Hnx. apply Hyn. apply Hxn in Hnx. rewrite Hnx in Hb.
    by destruct (price_key y).
  - intros px py Hpx Hpy. by rewrite (Hxs _ Hpx), (Hys _ Hpy) in Hb.
Qed.

(** X7. Every run ends with both loading flags cleared; its error is
    unset exactly when the prerequisite reads succeeded, and is the one
    fixed message otherwise, so a run that succeeds also clears the
    error an earlier run has left. *)
Theorem run_flags_and_error (w : World) (st : State) :
  loading (run w st) = false
  ∧ priceLoading (run w st) = false
  ∧ (error (run w st) = None ↔ ∃ cn cs n, prerequisites w = Ok (cn, cs, n))
  ∧ (error (run w st) ≠ None → error (run w st) = Some fetch_error
                               ∧ nfts (run w st) = nfts st).
Proof.
  destruct (prerequisites w) as [[[cn cs] n]|e] eqn:Hp.
  - rewrite (run_completed _ _ _ _ _ Hp). simpl. split_and!; try done.
    split; [|done]. intros _. by exists cn, cs, n.
  - rewrite (run_aborted _ _ _ Hp). simpl. split_and!; try done.
    split; [done|]. by intros (cn & cs & n & [=]).
Qed.

(** ** What is displayed as the price *)

Lemma lacks_symbol_price w id :
  price_failure (λ o, lacks_amount o ∨ lacks_symbol o) w id →
  fetchOpenSeaPrice w id = None
  ∨ ∃ p, fetchOpenSeaPrice w id = Some (p, None).
Proof.
  intros H.
  destruct (fetchOpenSeaPrice w id) as [[p c]|] eqn:Hf; [|by left].
  right. exists p. do 2 f_equal.
  pose proof Hf as Hf'.
  apply fetchOpenSeaPrice_Some in Hf'
    as (r & data & o & cp & t & Hr & Hok & Hj & Ho & Hcp & Ht & Hp & Htr & ->).
  assert (price_failure lacks_amount w id → False) as Hno
    by (intros Hpf; apply price_failure_null in Hpf; congruence).
  destruct H as [e H|r' H Hok'|r' e H Hj'|r' data' H Hj' Ho'|r' data' o' H Hj' Ho' [Hinc|Hinc]].
  - destruct Hno. exact (request_failed _ _ _ e H).
  - destruct Hno. exact (request_refused _ _ _ r' H Hok').
  - destruct Hno. exact (body_unreadable _ _ _ r' e H Hj').
  - destruct Hno. exact (nothing_listed _ _ _ r' data' H Hj' Ho').
  - destruct Hno. exact (listing_incomplete _ _ _ r' data' o' H Hj' Ho' Hinc).
  - destruct Hinc as (t' & Ht' & Hs). congruence.
Qed.

(** X8. An entry of a result is displayed as ["Not for sale"] whenever
    its price resolution failed in the wide sense, which includes a
    first listing whose payment token has no symbol field. *)
Theorem failed_price_not_for_sale
    (toFixed : number → nat → string)
    (w : World) (st : State) (cn cs : string) (n k : nat) (e0 : NFT) :
  prerequisites w = Ok (cn, cs, n) →
  validNFTs (nftResults w n cn cs) !! k = Some e0 →
  price_failure (λ o, lacks_amount o ∨ lacks_symbol o) w (tokenId e0) →
  ∃ e, nfts (run w st) !! k = Some e
       ∧ formatPrice toFixed (lowestPrice e) (currency e) = "Not for sale".
Proof.
  intros Hp Hk Hf. rewrite (run_completed _ _ _ _ _ Hp). simpl.
  exists (withPrice w e0). rewrite list_lookup_fmap, Hk. split; [done|].
  unfold withPrice. simpl.
  destruct (lacks_symbol_price _ _ Hf) as [->|[p ->]]; done.
Qed.

(** ** The view, for every sort key *)

Lemma includes_empty s : includes s EmptyString = true.
Proof. by destruct s. Qed.

Lemma List_filter_all (p : NFT → bool) (l : list NFT) :
  (∀ x, x ∈ l → p x = true) → List.filter p l = l.
Proof.
  induction l as [|x l IH]; intros H; simpl; [done|].
  rewrite H by (by left). f_equal. apply IH. intros y Hy. apply H. by right.
Qed.

(** X9. Whatever the sort key, the view holds exactly the entries that
    match the filter text, each as often as the entries hold it: sorting
    neither drops, adds nor repeats an entry. *)
Theorem view_holds_the_matching_entries
    (toLowerCase : string → string) (localeCompare : string → string → number)
    (parseInt : string → number) (sortBy : SortBy) (filter_text : string)
    (l : list NFT) :
  let v := view toLowerCase localeCompare parseInt sortBy filter_text l in
  v ≡ₚ List.filter (matches toLowerCase filter_text) l
  ∧ (∀ e, e ∈ v ↔ e ∈ l ∧ matches toLowerCase filter_text e = true)
  ∧ (length v ≤ length l)%nat.
Proof.
  intros v. subst v. unfold view. split_and!.
  - apply sort_perm.
  - intros e. rewrite sort_perm, list_elem_of_In, filter_In, <- list_elem_of_In.
    done.
  - rewrite sort_perm. apply filter_length_le.
Qed.

(** X10. With the empty filter text, which is the initial one, the view
    holds every entry, for every sort key; this uses that lower-casing
    the empty string gives the empty string. *)
Theorem empty_filter_shows_all
    (toLowerCase : string → string) (localeCompare : string → string → number)
    (parseInt : string → number) (sortBy : SortBy) (l : list NFT) :
  toLowerCase EmptyString = EmptyString →
  view toLowerCase localeCompare parseInt sortBy EmptyString l ≡ₚ l.
Proof.
  intros Hlow. unfold view. rewrite sort_perm.
  rewrite List_filter_all; [done|].
  intros e _. unfold matches. rewrite Hlow. by rewrite includes_empty.
Qed.

Section SortAgain.
Variable cmp : NFT → NFT → number.

Lemma sort_sorted_id l : StronglySorted (not_after cmp) l → sort cmp l = l.
Proof.
  induction 1 as [|x l Hl IH Hx]; simpl; [done|].
  rewrite IH. destruct l as [|y l]; simpl; [done|].
  apply Forall_cons in Hx as [Hxy _]. unfold not_after in Hxy. by rewrite Hxy.
Qed.

Lemma insert_by_ext cmp' x l :
  (∀ y, y ∈ l → positive_answer (cmp x y) = positive_answer (cmp' x y)) →
  insert_by cmp x l = insert_by cmp' x l.
Proof.
  induction l as [|y l IH]; intros H; simpl; [done|].
  rewrite <- H by (by left).
  destruct (positive_answer (cmp x y)); [|done].
  f_equal. apply IH. intros z Hz. apply H. by right.
Qed.

Lemma sort_ext cmp' l :
  (∀ x y, x ∈ l → y ∈ l →
     positive_answer (cmp x y) = positive_answer (cmp' x y)) →
  sort cmp l = sort cmp' l.
Proof.
  induction l as [|x l IH]; intros H; simpl; [done|].
  rewrite IH by (intros y z Hy Hz; apply H; by right).
  apply insert_by_ext. intros y Hy. rewrite sort_perm in Hy.
  apply H; [by left|by right].
Qed.
End SortAgain.

(** X11. Sorting by price is idempotent: taking the view of a view, with
    the same filter text, gives that view again. *)
Theorem view_by_price_idempotent
    (toLowerCase : string → string) (localeCompare : string → string → number)
    (parseInt : string → number) (filter_text : string) (l : list NFT) :
  view toLowerCase localeCompare parseInt by_price filter_text
    (view toLowerCase localeCompare parseInt by_price filter_text l)
  = view toLowerCase localeCompare parseInt by_price filter_text l.
Proof.
  unfold view at 1.
  rewrite List_filter_all by (intros e He; by apply view_elem in He as [_ He]).
  apply sort_sorted_id. unfold view.
  apply sort_sorted; [apply compare_price_trans|apply compare_price_total].
Qed.

(** X12. Sorting by token identifier, the initial sort key, orders the
    view by ascending numeric identifier and keeps the input order of
    entries with the same identifier, provided [parseInt] reads a number
    from the identifier of every entry. *)
Theorem view_by_tokenId_sorted
    (toLowerCase : string → string) (localeCompare : string → string → number)
    (parseInt : string → number) (filter_text : string) (l : list NFT)
    (num : NFT → Qc) :
  (∀ e, e ∈ l → parseInt (tokenId e) = Num (num e)) →
  let shown := List.filter (matches toLowerCase filter_text) l in
  let v := view toLowerCase localeCompare parseInt by_tokenId filter_text l in
  (∀ x y, before x y v → (num x ≤ num y)%Qc)
  ∧ (∀ k, List.filter (λ e, bool_decide (num e = k)) v
          = List.filter (λ e, bool_decide (num e = k)) shown).
Proof.
  intros Hnum shown v. subst v. unfold view. fold shown.
  set (cmp' := λ a b : NFT, Num (num a - num b)%Qc).
  assert (∀ x y, not_after cmp' x y ↔ (num x ≤ num y)%Qc) as Hle.
  { intros x y. unfold not_after, cmp'. simpl.
    rewrite bool_decide_eq_false. unfold Qcminus.
    by rewrite <- Qclt_minus_iff, <- Qcle_ngt. }
  assert (sort (compare localeCompare parseInt by_tokenId) shown = sort cmp' shown)
    as ->.
  { apply sort_ext. intros x y Hx Hy. simpl. unfold cmp'.
    assert (∀ e, e ∈ shown → e ∈ l) as Hin
      by (intros e; unfold shown;
          rewrite list_elem_of_In, filter_In, <- list_elem_of_In; by intros [? _]).
    by rewrite (Hnum x (Hin x Hx)), (Hnum y (Hin y Hy)). }
  split.
  - intros x y Hb. apply Hle. revert Hb. apply sort_before.
    + intros a b c. rewrite !Hle. apply Qcle_trans.
    + intros a b. rewrite !Hle. apply Qc_le_total.
  - intros k. apply sort_filter. intros x y Hx Hy.
    apply bool_decide_eq_true in Hx, Hy. apply Hle. rewrite Hx, Hy.
    apply Qcle_refl.
Qed.

(** * The catalog browser *)

(** ** Sorting arrays of any element *)

Section GenericSorting.
Context {A : Type}.
Variable cmp : A → A → number.

Lemma insert_with_perm x l : insert_with cmp x l ≡ₚ x :: l.
Proof.
  induction l as [|y l IH]; simpl; [done|].
  destruct (positive_answer (cmp x y)); [|done].
  rewrite IH. apply Permutation_swap.
Qed.

Lemma sort_with_perm l : sort_with cmp l ≡ₚ l.
Proof.
  induction l as [|x l IH]; simpl; [done|].
  rewrite insert_with_perm. by rewrite IH.
Qed.

Lemma insert_with_filter (P : A → bool) x l :
  (∀ y, P x = true → P y = true → not_after_with cmp x y) →
  List.filter P (insert_with cmp x l) = List.filter P (x :: l).
Proof.
  intros Hle. induction l as [|y l IH]; simpl; [done|].
  destruct (positive_answer (cmp x y)) eqn:Hxy; [|done].
  simpl. rewrite IH. simpl.
  destruct (P x) eqn:Hx; [|done]. destruct (P y) eqn:Hy; [|done].
  specialize (Hle y eq_refl Hy). unfold not_after_with in Hle. congruence.
Qed.

Lemma sort_with_filter (P : A → bool) l :
  (∀ x y, P x = true → P y = true → not_after_with cmp x y) →
  List.filter P (sort_with cmp l) = List.filter P l.
Proof.
  intros Hle. induction l as [|x l IH]; simpl; [done|].
  rewrite insert_with_filter by (intros; by apply Hle).
  simpl. by rewrite IH.
Qed.

Lemma insert_with_ext cmp' x l :
  (∀ y, y ∈ l → positive_answer (cmp x y) = positive_answer (cmp' x y)) →
  insert_with cmp x l = insert_with cmp' x l.
Proof.
  induction l as [|y l IH]; intros H; simpl; [done|].
  rewrite <- H by (by left).
  destruct (positive_answer (cmp x y)); [|done].
  f_equal. apply IH. intros z Hz. apply H. by right.
Qed.

Lemma sort_with_ext cmp' l :
  (∀ x y, x ∈ l → y ∈ l →
     positive_answer (cmp x y) = positive_answer (cmp' x y)) →
  sort_with cmp l = sort_with cmp' l.
Proof.
  induction l as [|x l IH]; intros H; simpl; [done|].
  rewrite <- IH by (intros y z Hy Hz; apply H; by right).
  apply insert_with_ext. intros y Hy. rewrite sort_with_perm in Hy.
  apply H; [by left|by right].
Qed.

Hypothesis cmp_trans :
  ∀ x y z, not_after_with cmp x y → not_after_with cmp y z →
           not_after_with cmp x z.
Hypothesis cmp_total : ∀ x y, not_after_with cmp x y ∨ not_after_with cmp y x.

Lemma insert_with_sorted x l :
  StronglySorted (not_after_with cmp) l →
  StronglySorted (not_after_with cmp) (insert_with cmp x l).
Proof.
  induction l as [|y l IH]; intros Hs; simpl.
  - repeat constructor.
  - apply StronglySorted_inv in Hs as [Hl Hy].
    destruct (positive_answer (cmp x y)) eqn:Hxy.
    + constructor; [by apply IH|].
      rewrite insert_with_perm. constructor; [|done].
      destruct (cmp_total x y) as [H|H]; [|done].
      unfold not_after_with in H. congruence.
    + constructor; [by constructor|].
      constructor; [done|].
      eapply Forall_impl; [exact Hy|]. intros z Hz.
      by apply cmp_trans with y.
Qed.

Lemma sort_with_sorted l : StronglySorted (not_after_with cmp) (sort_with cmp l).
Proof.
  induction l as [|x l IH]; simpl; [constructor|].
  by apply insert_with_sorted.
Qed.

Lemma sort_with_precedes x y l :
  precedes x y (sort_with cmp l) → not_after_with cmp x y.
Proof.
  intros (l1 & l2 & l3 & Heq).
  pose proof (sort_with_sorted l) as Hs. rewrite Heq in Hs.
  apply StronglySorted_app in Hs as (_ & _ & Hs).
  apply StronglySorted_inv in Hs as [_ Hs].
  rewrite Forall_forall in Hs. apply Hs.
  rewrite elem_of_app, elem_of_cons. auto.
Qed.
End GenericSorting.

Lemma precedes_elem {A} (x y : A) l : precedes x y l → x ∈ l ∧ y ∈ l.
Proof.
  intros (l1 & l2 & l3 & ->). split.
  - rewrite elem_of_app, elem_of_cons. auto.
  - rewrite elem_of_app, elem_of_cons, elem_of_app, elem_of_cons. auto.
Qed.

Lemma List_filter_filter {A} (p q : A → bool) l :
  List.filter p (List.filter q l) = List.filter (λ x, q x && p x) l.
Proof.
  induction l as [|x l IH]; simpl; [done|].
  destruct (q x); simpl; [|done]. destruct (p x); by rewrite IH.
Qed.

Lemma List_filter_elem {A} (p : A → bool) l x :
  x ∈ List.filter p l ↔ x ∈ l ∧ p x = true.
Proof. by rewrite list_elem_of_In, filter_In, <- list_elem_of_In. Qed.

(** ** The filtering effect and the arrays *)

Lemma List_filter_true {A} (p : A → bool) (l : list A) :
  (∀ x, p x = true) → List.filter p l = l.
Proof.
  intros H. induction l as [|x l IH]; simpl; [done|]. by rewrite H, IH.
Qed.

Lemma filtering_start (h : Catalog.store) a l :
  h !! a = Some l → filtering h a l (λ _, true) false (h, a).
Proof.
  intros Ha. split_and!; simpl; [|done..].
  by rewrite List_filter_true.
Qed.

Lemma filtering_step (h : Catalog.store) a l q touched hf term p :
  filtering h a l q touched hf →
  filtering h a l (λ r, q r && (negb (truthy_string term) || p r))
    (touched || truthy_string term) (Catalog.filter_if term p hf).
Proof.
  intros (Hc & Hframe & Ht). unfold Catalog.filter_if.
  destruct (truthy_string term); simpl.
  - unfold Catalog.array_filter, Catalog.alloc.
    rewrite (lookup_total_correct _ _ _ Hc). simpl.
    pose proof (is_fresh (dom hf.1)) as Hfresh.
    apply not_elem_of_dom in Hfresh.
    split_and!; cbn [fst snd].
    + rewrite lookup_insert_eq. by rewrite List_filter_filter.
    + intros b Hb. rewrite lookup_insert_ne; [by apply Hframe|].
      intros <-. rewrite <- (Hframe _ Hb), Hfresh in Hb. by destruct Hb.
    + rewrite orb_true_r.
      destruct (h !! fresh (dom hf.1)) eqn:Hh; [|done].
      rewrite <- Hframe, Hfresh in Hh by (by rewrite Hh). done.
  - rewrite orb_false_r. split_and!; [|done..].
    rewrite Hc. f_equal. apply List.filter_ext. intros r. by rewrite andb_true_r.
Qed.

Section CatalogEffect.
Variable toLowerCase : string → string.
Variable string_lt : string → string → bool.
Variable getTime : string → number.

Lemma applyFilters_filtering (h : Catalog.store) st l :
  h !! Catalog.nfts st = Some l →
  ∃ hf,
    filtering h (Catalog.nfts st) l (Catalog.passes toLowerCase st)
      (filter_set st) hf
    ∧ Catalog.applyFilters toLowerCase string_lt getTime h st =
        (<[hf.2 := sort_with (Catalog.compare string_lt getTime
                                (Catalog.sortField st) (Catalog.sortOrder st))
                     (List.filter (Catalog.passes toLowerCase st) l)]> hf.1,
         Catalog.with_filtered hf.2 1 st).
Proof.
  intros Ha. unfold Catalog.applyFilters.
  pose proof (filtering_start h _ l Ha) as H0.
  pose proof (filtering_step _ _ _ _ _ _ (Catalog.searchTerm st)
                (Catalog.search_match toLowerCase (Catalog.searchTerm st)) H0) as H1.
  pose proof (filtering_step _ _ _ _ _ _ (Catalog.platformFilter st)
                (λ row, Catalog.column_is (Catalog.Platform row)
                          (Catalog.platformFilter st)) H1) as H2.
  pose proof (filtering_step _ _ _ _ _ _ (Catalog.typeFilter st)
                (λ row, Catalog.column_is (Catalog.Type_ row)
                          (Catalog.typeFilter st)) H2) as H3.
  pose proof (filtering_step _ _ _ _ _ _ (Catalog.collaboratorFilter st)
                (λ row, Catalog.column_is (Catalog.Collaborator row)
                          (Catalog.collaboratorFilter st)) H3) as H4.
  eexists. split; [exact H4|].
  unfold Catalog.array_sort. destruct H4 as (Hc & _ & _).
  by rewrite (lookup_total_correct _ _ _ Hc).
Qed.
End CatalogEffect.

Lemma unfiltered_filter_set st : Catalog.unfiltered st → filter_set st = false.
Proof. intros (H1 & H2 & H3 & H4). unfold filter_set. by rewrite H1, H2, H3, H4. Qed.

Lemma unfiltered_passes tl st row :
  Catalog.unfiltered st → Catalog.passes tl st row = true.
Proof.
  intros (H1 & H2 & H3 & H4). unfold Catalog.passes. by rewrite H1, H2, H3, H4.
Qed.

Lemma applyFilters_unfiltered
    (toLowerCase : string → string) (string_lt : string → string → bool)
    (getTime : string → number)
    (h : Catalog.store) (st : Catalog.State) (l : list Catalog.NFT) :
  Catalog.unfiltered st →
  h !! Catalog.nfts st = Some l →
  Catalog.applyFilters toLowerCase string_lt getTime h st
  = (<[Catalog.nfts st :=
         sort_with (Catalog.compare string_lt getTime
                      (Catalog.sortField st) (Catalog.sortOrder st)) l]> h,
     Catalog.with_filtered (Catalog.nfts st) 1 st).
Proof.
  intros Hu Ha.
  destruct (applyFilters_filtering toLowerCase string_lt getTime h st l Ha)
    as (hf & (_ & _ & Ht) & ->).
  rewrite (unfiltered_filter_set _ Hu) in Ht. subst hf. simpl.
  by rewrite (List_filter_true (Catalog.passes toLowerCase st))
    by (intros row; by apply unfiltered_passes).
Qed.

(** X13. With no search term and no filter set, the effect sorts the
    array of the state itself: [filteredNfts] becomes that very array,
    whose rows are reordered in place, the page is reset to 1, and no
    array is created. *)
Theorem catalog_unfiltered_sorts_in_place
    (toLowerCase : string → string) (string_lt : string → string → bool)
    (getTime : string → number)
    (h : Catalog.store) (st : Catalog.State) (l : list Catalog.NFT) :
  Catalog.unfiltered st →
  h !! Catalog.nfts st = Some l →
  let sorted := sort_with (Catalog.compare string_lt getTime
                             (Catalog.sortField st) (Catalog.sortOrder st)) l in
  Catalog.applyFilters toLowerCase string_lt getTime h st
  = (<[Catalog.nfts st := sorted]> h,
     Catalog.with_filtered (Catalog.nfts st) 1 st)
  ∧ sorted ≡ₚ l.
Proof.
  intros Hu Ha sorted. split; [by apply applyFilters_unfiltered|].
  apply sort_with_perm.
Qed.

(** X14. As soon as a search term or a filter is set, the effect leaves
    the array of the state, and every other array, as it was:
    [filteredNfts] is a new array. *)
Theorem catalog_filtered_keeps_rows
    (toLowerCase : string → string) (string_lt : string → string → bool)
    (getTime : string → number)
    (h : Catalog.store) (st : Catalog.State) (l : list Catalog.NFT) :
  filter_set st = true →
  h !! Catalog.nfts st = Some l →
  let r := Catalog.applyFilters toLowerCase string_lt getTime h st in
  r.1 !! Catalog.nfts st = Some l
  ∧ h !! Catalog.filteredNfts r.2 = None
  ∧ Catalog.filteredNfts r.2 ≠ Catalog.nfts st
  ∧ (∀ b, is_Some (h !! b) → r.1 !! b = h !! b).
Proof.
  intros Hs Ha r. subst r.
  destruct (applyFilters_filtering toLowerCase string_lt getTime h st l Ha)
    as (hf & (_ & Hframe & Ht) & ->).
  rewrite Hs in Ht. cbn [fst snd Catalog.filteredNfts Catalog.with_filtered].
  assert (hf.2 ≠ Catalog.nfts st) as Hne by (intros Heq; congruence).
  assert (∀ (v : list Catalog.NFT) b,
            is_Some (h !! b) → <[hf.2:=v]> hf.1 !! b = h !! b) as Hold.
  { intros v b Hb. rewrite lookup_insert_ne; [by apply Hframe|].
    intros <-. rewrite Ht in Hb. by destruct Hb. }
  split_and!; try done.
  - rewrite <- Ha. apply Hold. by rewrite Ha.
  - intros b Hb. by apply Hold.
Qed.

(** X15. After the effect, [filteredNfts] holds exactly the rows of the
    state's array that pass every filter that is set, each as often as
    that array holds it, and the page is 1. A row that is shown has the
    selected platform, type and collaborator, for those that are
    selected. *)
Theorem catalog_shows_passing_rows
    (toLowerCase : string → string) (string_lt : string → string → bool)
    (getTime : string → number)
    (h : Catalog.store) (st : Catalog.State) (l : list Catalog.NFT) :
  h !! Catalog.nfts st = Some l →
  let r := Catalog.applyFilters toLowerCase string_lt getTime h st in
  ∃ shown,
    r.1 !! Catalog.filteredNfts r.2 = Some shown
    ∧ shown ≡ₚ List.filter (Catalog.passes toLowerCase st) l
    ∧ Catalog.page r.2 = 1
    ∧ Catalog.nfts r.2 = Catalog.nfts st
    ∧ ∀ row, row ∈ shown →
        row ∈ l
        ∧ (Catalog.platformFilter st ≠ EmptyString →
           Catalog.Platform row = Some (Catalog.platformFilter st))
        ∧ (Catalog.typeFilter st ≠ EmptyString →
           Catalog.Type_ row = Some (Catalog.typeFilter st))
        ∧ (Catalog.collaboratorFilter st ≠ EmptyString →
           Catalog.Collaborator row = Some (Catalog.collaboratorFilter st)).
Proof.
  intros Ha r. subst r.
  destruct (applyFilters_filtering toLowerCase string_lt getTime h st l Ha)
    as (hf & _ & ->).
  cbn [fst snd Catalog.filteredNfts Catalog.with_filtered Catalog.page
       Catalog.nfts].
  eexists. split; [apply lookup_insert_eq|].
  split; [apply sort_with_perm|]. split; [done|]. split; [done|].
  intros row Hrow. rewrite sort_with_perm in Hrow.
  apply List_filter_elem in Hrow as [Hin Hp]. split; [done|].
  unfold Catalog.passes, Catalog.column_is in Hp.
  apply andb_true_iff in Hp as [Hp H4]. apply andb_true_iff in Hp as [Hp H3].
  apply andb_true_iff in Hp as [_ H2].
  split_and!; intros Hne.
  - destruct (Catalog.platformFilter st); [done|].
    simpl in H2. by apply bool_decide_eq_true in H2.
  - destruct (Catalog.typeFilter st); [done|].
    simpl in H3. by apply bool_decide_eq_true in H3.
  - destruct (Catalog.collaboratorFilter st); [done|].
    simpl in H4. by apply bool_decide_eq_true in H4.
Qed.

(** ** The order of the rows *)

Lemma compare_column_not_after string_lt getTime f o x y :
  f ≠ Catalog.by_mint_date →
  (∀ a b, string_lt a b = true → string_lt b a = false) →
  not_after_with (Catalog.compare string_lt getTime f o) x y ↔
  match o with
  | Catalog.asc => string_lt (sort_value f y) (sort_value f x) = false
  | Catalog.desc => string_lt (sort_value f x) (sort_value f y) = false
  end.
Proof.
  intros Hf Hasym. unfold not_after_with, Catalog.compare.
  rewrite decide_False by done. fold (sort_value f x). fold (sort_value f y).
  destruct (string_lt (sort_value f x) (sort_value f y)) eqn:Hxy,
           (string_lt (sort_value f y) (sort_value f x)) eqn:Hyx, o;
    try (split; intros; by vm_compute).
  pose proof (Hasym _ _ Hxy). congruence.
Qed.

(** X16. When the sort field is not the mint date, the rows shown are in
    the order of their values in that column, an absent value counting
    as the empty string: ascending, no row is followed by one with a
    smaller value; descending, by none with a greater value. This uses
    that [<] on strings is a strict order in which incomparable strings
    are equivalent. *)
Theorem catalog_sorted_by_column
    (toLowerCase : string → string) (string_lt : string → string → bool)
    (getTime : string → number)
    (h : Catalog.store) (st : Catalog.State) (l shown : list Catalog.NFT)
    (x y : Catalog.NFT) :
  (∀ a b, string_lt a b = true → string_lt b a = false) →
  (∀ a b c, string_lt a c = true → string_lt a b = true ∨ string_lt b c = true) →
  Catalog.sortField st ≠ Catalog.by_mint_date →
  h !! Catalog.nfts st = Some l →
  let r := Catalog.applyFilters toLowerCase string_lt getTime h st in
  r.1 !! Catalog.filteredNfts r.2 = Some shown →
  precedes x y shown →
  match Catalog.sortOrder st with
  | Catalog.asc =>
      string_lt (sort_value (Catalog.sortField st) y)
                (sort_value (Catalog.sortField st) x) = false
  | Catalog.desc =>
      string_lt (sort_value (Catalog.sortField st) x)
                (sort_value (Catalog.sortField st) y) = false
  end.
Proof.
  intros Hasym Hneg Hf Ha r. subst r.
  destruct (applyFilters_filtering toLowerCase string_lt getTime h st l Ha)
    as (hf & _ & ->).
  cbn [fst snd Catalog.filteredNfts Catalog.with_filtered].
  rewrite lookup_insert_eq. intros [= <-] Hb.
  apply (compare_column_not_after string_lt getTime _ _ _ _ Hf Hasym).
  revert Hb. apply sort_with_precedes.
  - intros a b c.
    rewrite !(compare_column_not_after string_lt getTime _ _ _ _ Hf Hasym).
    destruct (Catalog.sortOrder st); intros H1 H2.
    + destruct (string_lt (sort_value _ c) (sort_value _ a)) eqn:E; [|done].
      destruct (Hneg _ (sort_value (Catalog.sortField st) b) _ E); congruence.
    + destruct (string_lt (sort_value _ a) (sort_value _ c)) eqn:E; [|done].
      destruct (Hneg _ (sort_value (Catalog.sortField st) b) _ E); congruence.
  - intros a b.
    rewrite !(compare_column_not_after string_lt getTime _ _ _ _ Hf Hasym).
    destruct (Catalog.sortOrder st).
    + destruct (string_lt (sort_value _ b) (sort_value _ a)) eqn:E; [|by left].
      right. by apply Hasym.
    + destruct (string_lt (sort_value _ a) (sort_value _ b)) eqn:E; [|by left].
      right. by apply Hasym.
Qed.

(** X17. When the sort field is the mint date and every row's date is
    read as a time, the rows shown are ordered by that time: ascending
    oldest first, descending (the initial order) newest first. *)
Theorem catalog_sorted_by_date
    (toLowerCase : string → string) (string_lt : string → string → bool)
    (getTime : string → number)
    (h : Catalog.store) (st : Catalog.State) (l shown : list Catalog.NFT)
    (time : Catalog.NFT → Qc) (x y : Catalog.NFT) :
  (∀ row, row ∈ l → getTime (sort_value Catalog.by_mint_date row) = Num (time row)) →
  Catalog.sortField st = Catalog.by_mint_date →
  h !! Catalog.nfts st = Some l →
  let r := Catalog.applyFilters toLowerCase string_lt getTime h st in
  r.1 !! Catalog.filteredNfts r.2 = Some shown →
  precedes x y shown →
  match Catalog.sortOrder st with
  | Catalog.asc => (time x ≤ time y)%Qc
  | Catalog.desc => (time y ≤ time x)%Qc
  end.
Proof.
  intros Htime Hf Ha r. subst r.
  destruct (applyFilters_filtering toLowerCase string_lt getTime h st l Ha)
    as (hf & _ & ->).
  cbn [fst snd Catalog.filteredNfts Catalog.with_filtered].
  rewrite lookup_insert_eq. intros [= <-].
  set (cmp' := λ a b : Catalog.NFT,
         match Catalog.sortOrder st with
         | Catalog.asc => Num (time a - time b)%Qc
         | Catalog.desc => Num (time b - time a)%Qc
         end).
  assert (∀ a b, not_after_with cmp' a b ↔
                 match Catalog.sortOrder st with
                 | Catalog.asc => (time a ≤ time b)%Qc
                 | Catalog.desc => (time b ≤ time a)%Qc
                 end) as Hle.
  { intros a b. unfold not_after_with, cmp'.
    destruct (Catalog.sortOrder st); simpl;
      rewrite bool_decide_eq_false; unfold Qcminus;
      by rewrite <- Qclt_minus_iff, <- Qcle_ngt. }
  rewrite (sort_with_ext _ cmp').
  - intros Hb. apply Hle. revert Hb. apply sort_with_precedes.
    + intros a b c. rewrite !Hle.
      destruct (Catalog.sortOrder st); intros H1 H2;
        eapply Qcle_trans; eauto.
    + intros a b. rewrite !Hle.
      destruct (Catalog.sortOrder st); [apply Qc_le_total|].
      destruct (Qc_le_total (time a) (time b)); auto.
  - intros a b Ha' Hb'. apply List_filter_elem in Ha' as [Ha' _], Hb' as [Hb' _].
    unfold Catalog.compare, cmp'. rewrite Hf. rewrite decide_True by done.
    fold (sort_value Catalog.by_mint_date a).
    fold (sort_value Catalog.by_mint_date b).
    rewrite (Htime _ Ha'), (Htime _ Hb'). by destruct (Catalog.sortOrder st).
Qed.

(** ** The option lists *)

Lemma distinct_elem seen values v :
  v ∈ Catalog.distinct seen values ↔ v ∈ values ∧ v ∉ seen.
Proof.
  revert seen. induction values as [|x values IH]; intros seen; simpl.
  - split; [by intros ?%elem_of_nil|by intros [?%elem_of_nil _]].
  - destruct (decide (x ∈ seen)) as [Hx|Hx].
    + rewrite IH, elem_of_cons. split; [by intros [? ?]; auto|].
      intros [[->|?] ?]; done.
    + rewrite elem_of_cons, IH, !elem_of_cons. split.
      * intros [->|[? Hn]]; [auto|]. split; [auto|]. intros ?. apply Hn. by right.
      * intros [[->|Hv] Hn]; [by left|].
        destruct (decide (v = x)) as [->|Hne]; [by left|].
        right. split; [done|]. intros [?|?]; done.
Qed.

Lemma distinct_NoDup seen values : NoDup (Catalog.distinct seen values).
Proof.
  revert seen. induction values as [|x values IH]; intros seen; simpl.
  - constructor.
  - destruct (decide (x ∈ seen)); [apply IH|].
    constructor; [|apply IH]. rewrite distinct_elem.
    intros [_ Hn]. apply Hn. by left.
Qed.

Lemma distinct_app seen l1 l2 :
  ∃ seen', Catalog.distinct seen (l1 ++ l2)
           = Catalog.distinct seen l1 ++ Catalog.distinct seen' l2.
Proof.
  revert seen. induction l1 as [|x l1 IH]; intros seen; simpl.
  - by exists seen.
  - destruct (decide (x ∈ seen)); [apply IH|].
    destruct (IH (x :: seen)) as [seen' ->]. by exists seen'.
Qed.

Lemma truthy_value_Some v s :
  Catalog.truthy_value v = Some s ↔ v = Some s ∧ s ≠ EmptyString.
Proof.
  unfold Catalog.truthy_value. destruct v as [[|c t]|]; simpl.
  - split; [done|]. by intros [[= <-] ?].
  - split; [by intros [= <-]|]. by intros [[= <-] _].
  - split; [done|]. by intros [? _].
Qed.

Lemma omap_NoDup {A B} (f : A → option B) (l : list A) :
  (∀ x y z, f x = Some z → f y = Some z → x = y) →
  NoDup l → NoDup (omap f l).
Proof.
  intros Hinj. induction 1 as [|x l Hx Hl IH]; [constructor|].
  change (omap f (x :: l))
    with (match f x with Some y => y :: omap f l | None => omap f l end).
  destruct (f x) as [z|] eqn:Hz; [|done].
  constructor; [|done]. rewrite list_elem_of_omap.
  intros (y & Hy & Hfy). by rewrite (Hinj _ _ _ Hz Hfy) in Hx.
Qed.

Lemma options_elem column rows s :
  s ∈ Catalog.options column rows ↔
  s ≠ EmptyString ∧ ∃ row, row ∈ rows ∧ column row = Some s.
Proof.
  unfold Catalog.options. rewrite list_elem_of_omap. split.
  - intros (v & Hv & Hs). apply truthy_value_Some in Hs as [-> Hne].
    apply distinct_elem in Hv as [Hv _].
    apply list_elem_of_fmap in Hv as (row & Hrow & Hin). split; [done|].
    by exists row.
  - intros (Hne & row & Hin & Hc). exists (Some s). split.
    + apply distinct_elem. split; [|apply not_elem_of_nil].
      apply list_elem_of_fmap. by exists row.
    + by apply truthy_value_Some.
Qed.

(** X18. The option list of a column (platforms, types, collaborators)
    holds no value twice and never the empty string; a string is in it
    exactly when it is not empty and is the value of some row; and rows
    added at the end only add options at the end. *)
Theorem catalog_options_distinct
    (column : Catalog.NFT → option string) (rows more : list Catalog.NFT) :
  NoDup (Catalog.options column rows)
  ∧ (∀ s, s ∈ Catalog.options column rows ↔
          s ≠ EmptyString ∧ ∃ row, row ∈ rows ∧ column row = Some s)
  ∧ ∃ added, Catalog.options column (rows ++ more)
             = Catalog.options column rows ++ added.
Proof.
  split_and!.
  - unfold Catalog.options. apply omap_NoDup; [|apply distinct_NoDup].
    intros x y z Hx Hy. apply truthy_value_Some in Hx as [-> _], Hy as [-> _].
    done.
  - apply options_elem.
  - unfold Catalog.options. rewrite fmap_app.
    destruct (distinct_app [] (column <$> rows) (column <$> more)) as [seen' ->].
    rewrite omap_app. by eexists.
Qed.

(** X19. Choosing a platform that the platform list offers, with nothing
    else set, never gives an empty catalog: the rows shown are the rows
    of that platform, and there is at least one. *)
Theorem catalog_offered_platform_has_rows
    (toLowerCase : string → string) (string_lt : string → string → bool)
    (getTime : string → number)
    (h : Catalog.store) (st : Catalog.State) (l : list Catalog.NFT) (p : string) :
  Catalog.unfiltered st →
  h !! Catalog.nfts st = Some l →
  p ∈ Catalog.platforms l →
  let r := Catalog.applyFilters toLowerCase string_lt getTime h
             (Catalog.setPlatformFilter p st) in
  ∃ shown,
    r.1 !! Catalog.filteredNfts r.2 = Some shown
    ∧ shown ≠ []
    ∧ ∀ row, row ∈ shown ↔ row ∈ l ∧ Catalog.Platform row = Some p.
Proof.
  intros (H1 & H2 & H3 & H4) Ha Hp r. subst r.
  apply options_elem in Hp as (Hne & row0 & Hin0 & Hrow0).
  destruct (applyFilters_filtering toLowerCase string_lt getTime h
              (Catalog.setPlatformFilter p st) l Ha) as (hf & _ & ->).
  cbn [fst snd Catalog.filteredNfts Catalog.with_filtered].
  eexists. split; [apply lookup_insert_eq|].
  assert (∀ row, Catalog.passes toLowerCase (Catalog.setPlatformFilter p st) row
                 = bool_decide (Catalog.Platform row = Some p)) as Hpass.
  { intros row. unfold Catalog.passes, Catalog.setPlatformFilter. simpl.
    rewrite H1, H3, H4. simpl. destruct p; [done|]. simpl.
    by rewrite !andb_true_r. }
  assert (∀ row, row ∈ sort_with
            (Catalog.compare string_lt getTime
               (Catalog.sortField (Catalog.setPlatformFilter p st))
               (Catalog.sortOrder (Catalog.setPlatformFilter p st)))
            (List.filter (Catalog.passes toLowerCase
                            (Catalog.setPlatformFilter p st)) l)
          ↔ row ∈ l ∧ Catalog.Platform row = Some p) as Hshown.
  { intros row. rewrite sort_with_perm, List_filter_elem, Hpass.
    by rewrite bool_decide_eq_true. }
  split; [|exact Hshown].
  intros Hnil. assert (row0 ∈ @nil Catalog.NFT) as Hbad
    by (rewrite <- Hnil; by apply Hshown).
  by apply elem_of_nil in Hbad.
Qed.

(** ** Sort chips and clearing *)

(** X20. Clicking a sort chip makes its field the sort field and leaves
    the filters, the page and the arrays alone; on another field than
    the current one the order becomes ascending, on the current field
    the order flips, so that two clicks on the current field restore
    the state. *)
Theorem catalog_sort_chip (f : Catalog.SortField) (st : Catalog.State) :
  Catalog.sortField (Catalog.handleSortChange f st) = f
  ∧ (Catalog.sortField st ≠ f →
     Catalog.sortOrder (Catalog.handleSortChange f st) = Catalog.asc)
  ∧ (Catalog.sortField st = f →
     Catalog.sortOrder (Catalog.handleSortChange f st) ≠ Catalog.sortOrder st
     ∧ Catalog.handleSortChange f (Catalog.handleSortChange f st) = st)
  ∧ Catalog.handleSortChange f st
    = Catalog.with_sort (Catalog.sortField (Catalog.handleSortChange f st))
        (Catalog.sortOrder (Catalog.handleSortChange f st)) st.
Proof.
  unfold Catalog.handleSortChange.
  destruct (decide (Catalog.sortField st = f)) as [Heq|Hne]; split_and!;
    try done.
  intros _. split; [by destruct (Catalog.sortOrder st)|].
  simpl. rewrite decide_True by done.
  destruct st as [? ? ? ? ? ? ? ? ? o ? ?]. simpl. by destruct o.
Qed.

(** X21. After "Clear Filters" the effect shows every row of the catalog
    again, on the array of the state itself, sorted by mint date with
    the descending order, on page 1. *)
Theorem catalog_clear_filters_shows_all
    (toLowerCase : string → string) (string_lt : string → string → bool)
    (getTime : string → number)
    (h : Catalog.store) (st : Catalog.State) (l : list Catalog.NFT) :
  h !! Catalog.nfts st = Some l →
  let r := Catalog.applyFilters toLowerCase string_lt getTime h
             (Catalog.clearFilters st) in
  Catalog.filteredNfts r.2 = Catalog.nfts st
  ∧ Catalog.page r.2 = 1
  ∧ Catalog.sortField r.2 = Catalog.by_mint_date
  ∧ Catalog.sortOrder r.2 = Catalog.desc
  ∧ ∃ shown, r.1 !! Catalog.filteredNfts r.2 = Some shown ∧ shown ≡ₚ l.
Proof.
  intros Ha r. subst r.
  rewrite (applyFilters_unfiltered toLowerCase string_lt getTime h
             (Catalog.clearFilters st) l); [|done|done].
  cbn [fst snd Catalog.filteredNfts Catalog.with_filtered Catalog.page
       Catalog.sortField Catalog.sortOrder Catalog.clearFilters Catalog.nfts].
  split_and!; try done.
  eexists. split; [apply lookup_insert_eq|apply sort_with_perm].
Qed.

(** ** Pages *)

Lemma page_take (p : nat) (rows : list Catalog.NFT) :
  (1 ≤ p)%nat →
  Catalog.paginatedNfts p rows = take 12 (drop ((p - 1) * 12) rows).
Proof.
  intros Hp. unfold Catalog.paginatedNfts, slice, Catalog.itemsPerPage.
  f_equal. lia.
Qed.

Lemma pageCount_bounds (rows : list Catalog.NFT) :
  (length rows ≤ Catalog.pageCount rows * 12)%nat
  ∧ (rows ≠ [] → (Catalog.pageCount rows - 1) * 12 < length rows).
Proof.
  unfold Catalog.pageCount, ceil_div, Catalog.itemsPerPage.
  pose proof (Nat.div_mod_eq (length rows + 12 - 1) 12) as Hd.
  pose proof (Nat.mod_upper_bound (length rows + 12 - 1) 12) as Hm.
  split; [lia|]. intros Hne.
  assert (length rows ≠ 0) by (by destruct rows). lia.
Qed.

Lemma chunks_cover (k : nat) (rows : list Catalog.NFT) :
  (length rows ≤ k * 12)%nat →
  concat ((λ p, take 12 (drop ((p - 1) * 12) rows)) <$> seq 1 k) = rows.
Proof.
  revert rows. induction k as [|k IH]; intros rows Hlen.
  - destruct rows; [done|simpl in Hlen; lia].
  - change (seq 1 (S k)) with (1 :: seq 2 k).
    rewrite fmap_cons. rewrite <- (fmap_S_seq 1 k), <- list_fmap_compose.
    simpl concat. rewrite drop_0.
    rewrite (list_fmap_ext _ (λ p, take 12 (drop ((p - 1) * 12) (drop 12 rows)))).
    + rewrite IH by (rewrite length_drop; lia). apply take_drop.
    + intros i p Hp. apply list_elem_of_lookup_2, elem_of_seq in Hp.
      simpl. rewrite drop_drop. do 2 f_equal. lia.
Qed.

(** X22. The pages partition the filtered rows: the pages 1 to
    [pageCount], one after the other, give back the rows, in order. *)
Theorem catalog_pages_cover (rows : list Catalog.NFT) :
  concat ((λ p, Catalog.paginatedNfts p rows) <$> seq 1 (Catalog.pageCount rows))
  = rows.
Proof.
  rewrite (list_fmap_ext _ (λ p, take 12 (drop ((p - 1) * 12) rows))).
  - apply chunks_cover, pageCount_bounds.
  - intros i p Hp. apply list_elem_of_lookup_2, elem_of_seq in Hp.
    apply page_take. lia.
Qed.

(** X23. No page holds more than 12 rows; every page before the last
    holds 12, the last one holds at least one, and page 0 and the pages
    after the last are empty. There is no page exactly when there is no
    row, and more than one page exactly when there are more than 12
    rows. *)
Theorem catalog_page_sizes (p : nat) (rows : list Catalog.NFT) :
  (length (Catalog.paginatedNfts p rows) ≤ 12)%nat
  ∧ ((1 ≤ p < Catalog.pageCount rows)%nat →
     length (Catalog.paginatedNfts p rows) = 12)
  ∧ ((1 ≤ p)%nat → p = Catalog.pageCount rows →
     (1 ≤ length (Catalog.paginatedNfts p rows))%nat)
  ∧ (p = 0 ∨ Catalog.pageCount rows < p → Catalog.paginatedNfts p rows = [])
  ∧ (Catalog.pageCount rows = 0 ↔ rows = [])
  ∧ (1 < Catalog.pageCount rows ↔ 12 < length rows).
Proof.
  destruct (pageCount_bounds rows) as [Hup Hlow].
  assert (rows = [] → Catalog.pageCount rows = 0) as Hnil by (by intros ->).
  assert (length (Catalog.paginatedNfts p rows)
          = (p * 12 - (p - 1) * 12) `min` (length rows - (p - 1) * 12)) as Hlen.
  { unfold Catalog.paginatedNfts, slice, Catalog.itemsPerPage.
    by rewrite length_take, length_drop. }
  destruct (decide (rows = [])) as [Hr|Hr].
  - specialize (Hnil Hr). subst rows. simpl in *.
    split_and!; try lia; try done.
    intros _. unfold Catalog.paginatedNfts, slice. by rewrite drop_nil, take_nil.
  - specialize (Hlow Hr). assert (length rows ≠ 0) by (by destruct rows).
    split_and!; try lia.
    + intros Hp. apply length_zero_iff_nil. lia.
    + split; [lia|done].
Qed.

(** ** Images *)

(** X24. For a row with a content identifier, [getImageUrl] is the
    address that the viewer's resolver gives for ["ipfs://"] followed by
    that identifier; the address is never empty, a row without
    identifier getting the placeholder. *)
Theorem catalog_image_url (row : Catalog.NFT) :
  (∀ cid, Catalog.IPFSImage row = Some cid → cid ≠ EmptyString →
          Catalog.getImageUrl row = ipfs ("ipfs://" +:+ cid))
  ∧ (Catalog.IPFSImage row = None ∨ Catalog.IPFSImage row = Some EmptyString →
     Catalog.getImageUrl row
     = "https://via.placeholder.com/300x300?text=No+Image")
  ∧ Catalog.getImageUrl row ≠ EmptyString.
Proof.
  unfold Catalog.getImageUrl. split_and!.
  - intros cid -> Hne. destruct cid as [|c cid]; [done|].
    symmetry. apply (ipfs_first EmptyString). reflexivity.
  - by intros [->| ->].
  - by destruct (Catalog.IPFSImage row) as [[|c cid]|].
Qed.

(** * The further properties at sample inputs *)

Lemma code_lt_asym a b : code_lt a b = true → code_lt b a = false.
Proof.
  unfold code_lt.
  destruct (String_as_OT.compare a b) eqn:Hab; try done.
  destruct (String_as_OT.compare b a) eqn:Hba; try done.
  intros _. exfalso.
  apply (StrictOrder_Irreflexive (R := String_as_OT.lt) a).
  by transitivity b.
Qed.

Lemma code_lt_between a b c :
  code_lt a c = true → code_lt a b = true ∨ code_lt b c = true.
Proof.
  unfold code_lt.
  destruct (String_as_OT.compare a c) eqn:Hac; try done. intros _.
  destruct (String_as_OT.compare_spec a b) as [->|Hab|Hba].
  - right. by rewrite Hac.
  - by left.
  - right. assert (String_as_OT.lt b c) as Hbc by (by transitivity a).
    unfold String_as_OT.lt in Hbc. by rewrite Hbc.
Qed.

Lemma empty_wallet_completes_witness : run (calm 0) st0 = completed [].
Proof. apply (empty_wallet_completes (calm 0) st0 "Cats" "CAT"); reflexivity. Defined.

Lemma entries_in_enumeration_order_witness :
  tokenId <$> nfts (run three_with_gap st0) = ["10"; "12"]
  ∧ (length (nfts (run three_with_gap st0)) ≤ 3)%nat.
Proof.
  destruct (entries_in_enumeration_order three_with_gap st0 "Cats" "CAT" 3 eq_refl)
    as [H1 H2].
  split; [|exact H2]. rewrite H1. reflexivity.
Defined.

Lemma entries_named_and_labelled_witness :
  ∃ e, e ∈ nfts (run unnamed_cat st0)
       ∧ name e ≠ EmptyString ∧ collectionName e = Some "Cats".
Proof.
  assert (withPrice unnamed_cat
            {| tokenId := "10"; name := "#10"; image := EmptyString;
               description := EmptyString; attributes := None;
               collectionName := Some "Cats"; collectionSymbol := Some "CAT";
               lowestPrice := None; currency := None |}
          ∈ nfts (run unnamed_cat st0)) as Hin
    by (apply list_elem_of_lookup_2 with 0; reflexivity).
  destruct (entries_named_and_labelled unnamed_cat st0 "Cats" "CAT" 1 _ eq_refl Hin)
    as (H1 & H2 & _).
  eexists. split; [exact Hin|]. split; [exact H1|exact H2].
Defined.

Lemma returned_price_is_of_first_listing_witness :
  fetchOpenSeaPrice market_day "11" = Some (ratio 3 2, Some (Val "ETH"))
  ∧ ∃ o, first_order {| sell_orders := Some [listing 1500 3] |} = Some o
         ∧ current_price o ≠ Some 0%Z.
Proof.
  assert (fetchOpenSeaPrice market_day "11" = Some (ratio 3 2, Some (Val "ETH")))
    as H by (vm_compute; do 2 f_equal; apply Num_eq; reflexivity).
  destruct (returned_price_is_of_first_listing market_day "11" _ _ H)
    as (r & data & o & cp & t & Hr & _ & Hj & Ho & Hcp & _ & _ & Hne & _).
  injection Hr as <-. injection Hj as <-.
  split; [exact H|]. exists o. split; [exact Ho|].
  rewrite Hcp. intros [= Hz]. exact (Hne Hz).
Defined.

Lemma stored_price_absent_or_nonzero_witness :
  ∃ e, e ∈ nfts (run market_day st0)
       ∧ ∃ q, lowestPrice e = Some (Num q) ∧ q ≠ 0%Qc.
Proof.
  assert (withPrice market_day (cat 11) ∈ nfts (run market_day st0)) as Hin
    by (apply list_elem_of_lookup_2 with 1; reflexivity).
  destruct (stored_price_absent_or_nonzero market_day st0 "Cats" "CAT" 3 _
              eq_refl Hin) as [[H _]|H].
  - exfalso. vm_compute in H. discriminate H.
  - eexists. split; [exact Hin|exact H].
Defined.

Lemma stored_entries_sort_by_price_witness :
  lowestPrice (withPrice market_day (cat 10)) = None
  ∧ ∀ px py,
      lowestPrice (withPrice market_day (cat 12)) = Some (Num px) →
      lowestPrice (withPrice market_day (cat 11)) = Some (Num py) →
      (px ≤ py)%Qc.
Proof.
  assert (before (withPrice market_day (cat 12)) (withPrice market_day (cat 11))
            (view same_text no_collation sample_parseInt by_price EmptyString
               (nfts (run market_day st0)))) as Hb
    by (exists [], [], [withPrice market_day (cat 10)]; vm_compute; reflexivity).
  destruct (stored_entries_sort_by_price same_text no_collation sample_parseInt
              EmptyString market_day st0 "Cats" "CAT" 3 _ _ eq_refl Hb) as [_ H].
  split; [reflexivity|exact H].
Defined.

Lemma price_sort_of_stored_entries_witness :
  reachable (run market_day initial)
  ∧ (Q2Qc (1 # 4) ≤ Q2Qc (3 # 2))%Qc.
Proof.
  assert (reachable (run market_day initial)) as Hr
    by (apply reachable_run, reachable_initial).
  assert (before (withPrice market_day (cat 12)) (withPrice market_day (cat 11))
            (view same_text no_collation sample_parseInt by_price EmptyString
               (nfts (run market_day initial)))) as Hb
    by (exists [], [], [withPrice market_day (cat 10)]; vm_compute; reflexivity).
  assert (lowestPrice (withPrice market_day (cat 12)) = Some (Num (Q2Qc (1 # 4))))
    as H12 by (vm_compute; do 2 f_equal; apply Qc_is_canon; reflexivity).
  assert (lowestPrice (withPrice market_day (cat 11)) = Some (Num (Q2Qc (3 # 2))))
    as H11 by (vm_compute; do 2 f_equal; apply Qc_is_canon; reflexivity).
  destruct (price_sort_of_stored_entries same_text no_collation sample_parseInt
              EmptyString (run market_day initial) Hr) as (_ & _ & _ & H & _).
  split; [exact Hr|]. exact (H _ _ _ _ Hb H12 H11).
Defined.

Lemma run_flags_and_error_witness :
  loading (run no_contract st0) = false
  ∧ error (run no_contract st0) = Some fetch_error
  ∧ error (run (calm 2) (run no_contract st0)) = None.
Proof.
  destruct (run_flags_and_error no_contract st0) as (H1 & _ & _ & H4).
  destruct (run_flags_and_error (calm 2) (run no_contract st0))
    as (_ & _ & H3 & _).
  split_and!.
  - exact H1.
  - apply H4. discriminate.
  - apply H3. exists "Cats", "CAT", 2. reflexivity.
Defined.

Lemma failed_price_not_for_sale_witness :
  ∃ e, nfts (run nameless_market st0) !! 0 = Some e
       ∧ formatPrice sample_toFixed (lowestPrice e) (currency e) = "Not for sale".
Proof.
  assert (price_failure (λ o, lacks_amount o ∨ lacks_symbol o) nameless_market
            (tokenId (cat 10))) as Hf.
  { eapply listing_incomplete; [reflexivity..|]. right.
    eexists. split; reflexivity. }
  destruct (failed_price_not_for_sale sample_toFixed nameless_market st0
              "Cats" "CAT" 1 0 (cat 10) eq_refl eq_refl Hf) as (e & He & Hd).
  exists e. split; [exact He|exact Hd].
Defined.

Lemma view_holds_the_matching_entries_witness :
  (length (view same_text no_collation sample_parseInt by_name "none" shelf)
   ≤ 3)%nat.
Proof.
  destruct (view_holds_the_matching_entries same_text no_collation
              sample_parseInt by_name "none" shelf) as (_ & _ & H).
  exact H.
Defined.

Lemma empty_filter_shows_all_witness :
  view same_text no_collation sample_parseInt by_tokenId EmptyString shelf
  ≡ₚ shelf.
Proof.
  apply (empty_filter_shows_all same_text no_collation sample_parseInt
           by_tokenId shelf).
  reflexivity.
Defined.

Lemma view_by_tokenId_sorted_witness :
  (sample_num (priced "1" 5) ≤ sample_num (unpriced "2"))%Qc.
Proof.
  assert (∀ e, e ∈ shelf → sample_parseInt (tokenId e) = Num (sample_num e)) as Hn.
  { intros e He. unfold shelf in He.
    apply elem_of_cons in He as [->|He]; [reflexivity|].
    apply elem_of_cons in He as [->|He]; [reflexivity|].
    apply elem_of_cons in He as [->|He]; [reflexivity|].
    by apply elem_of_nil in He. }
  destruct (view_by_tokenId_sorted same_text no_collation sample_parseInt
              EmptyString shelf sample_num Hn) as [H _].
  apply H. exists [], [], [priced "3" 2]. reflexivity.
Defined.

Lemma sheet_times row :
  row ∈ Catalog.sheet →
  sample_getTime (sort_value Catalog.by_mint_date row) = Num (sample_time row).
Proof.
  intros He. unfold Catalog.sheet in He.
  apply elem_of_cons in He as [->|He]; [reflexivity|].
  apply elem_of_cons in He as [->|He]; [reflexivity|].
  apply elem_of_cons in He as [->|He]; [reflexivity|].
  by apply elem_of_nil in He.
Qed.

Lemma catalog_unfiltered_sorts_in_place_witness :
  let r := Catalog.applyFilters same_text code_lt sample_getTime sample_store
             (Catalog.fresh_state 1%positive) in
  Catalog.filteredNfts r.2 = 1%positive
  ∧ Catalog.page r.2 = 1
  ∧ ∃ rows, r.1 !! 1%positive = Some rows ∧ rows ≡ₚ Catalog.sheet.
Proof.
  intros r. subst r.
  destruct (catalog_unfiltered_sorts_in_place same_text code_lt sample_getTime
              sample_store (Catalog.fresh_state 1%positive) Catalog.sheet)
    as [Heq Hperm].
  - repeat split.
  - apply lookup_singleton_eq.
  - rewrite Heq. cbn [fst snd]. split_and!; [reflexivity..|].
    eexists. split; [apply lookup_insert_eq|exact Hperm].
Defined.

Lemma catalog_filtered_keeps_rows_witness :
  let r := Catalog.applyFilters same_text code_lt sample_getTime sample_store
             (Catalog.setPlatformFilter "OpenSea" (Catalog.fresh_state 1%positive)) in
  r.1 !! 1%positive = Some Catalog.sheet
  ∧ Catalog.filteredNfts r.2 ≠ 1%positive.
Proof.
  intros r. subst r.
  destruct (catalog_filtered_keeps_rows same_text code_lt sample_getTime
              sample_store
              (Catalog.setPlatformFilter "OpenSea" (Catalog.fresh_state 1%positive))
              Catalog.sheet eq_refl (lookup_singleton_eq _ _))
    as (H1 & _ & H3 & _).
  split; [exact H1|exact H3].
Defined.

Lemma catalog_shows_passing_rows_witness :
  let r := Catalog.applyFilters same_text code_lt sample_getTime sample_store
             (Catalog.setPlatformFilter "OpenSea" (Catalog.fresh_state 1%positive)) in
  ∃ shown,
    r.1 !! Catalog.filteredNfts r.2 = Some shown
    ∧ length shown = 2
    ∧ Catalog.page r.2 = 1.
Proof.
  intros r. subst r.
  destruct (catalog_shows_passing_rows same_text code_lt sample_getTime
              sample_store
              (Catalog.setPlatformFilter "OpenSea" (Catalog.fresh_state 1%positive))
              Catalog.sheet (lookup_singleton_eq _ _))
    as (shown & H1 & H2 & H3 & _).
  exists shown. split; [exact H1|]. split; [|exact H3].
  rewrite H2. reflexivity.
Defined.

Lemma catalog_sorted_by_column_witness :
  code_lt (sort_value Catalog.by_platform
             (Catalog.row "Nimbuds" "2021-04-01" "OpenSea" "1/1"))
          (sort_value Catalog.by_platform
             (Catalog.row "Cloudy" "2021-03-01" "Foundation" "Edition"))
  = false.
Proof.
  apply (catalog_sorted_by_column same_text code_lt sample_getTime sample_store
           (Catalog.handleSortChange Catalog.by_platform
              (Catalog.fresh_state 1%positive))
           Catalog.sheet
           [Catalog.row "Cloudy" "2021-03-01" "Foundation" "Edition";
            Catalog.row "Nimbuds" "2021-04-01" "OpenSea" "1/1";
            Catalog.row "Between" "2022-01-01" "OpenSea" "Edition"]
           (Catalog.row "Cloudy" "2021-03-01" "Foundation" "Edition")
           (Catalog.row "Nimbuds" "2021-04-01" "OpenSea" "1/1")
           code_lt_asym code_lt_between).
  - discriminate.
  - apply lookup_singleton_eq.
  - vm_compute. reflexivity.
  - exists [], [], [Catalog.row "Between" "2022-01-01" "OpenSea" "Edition"].
    reflexivity.
Defined.

Lemma catalog_sorted_by_date_witness :
  (sample_time (Catalog.row "Nimbuds" "2021-04-01" "OpenSea" "1/1")
   ≤ sample_time (Catalog.row "Between" "2022-01-01" "OpenSea" "Edition"))%Qc.
Proof.
  apply (catalog_sorted_by_date same_text code_lt sample_getTime sample_store
           (Catalog.fresh_state 1%positive) Catalog.sheet
           [Catalog.row "Between" "2022-01-01" "OpenSea" "Edition";
            Catalog.row "Nimbuds" "2021-04-01" "OpenSea" "1/1";
            Catalog.row "Cloudy" "2021-03-01" "Foundation" "Edition"]
           sample_time
           (Catalog.row "Between" "2022-01-01" "OpenSea" "Edition")
           (Catalog.row "Nimbuds" "2021-04-01" "OpenSea" "1/1")
           sheet_times eq_refl (lookup_singleton_eq _ _)).
  - vm_compute. reflexivity.
  - exists [], [], [Catalog.row "Cloudy" "2021-03-01" "Foundation" "Edition"].
    reflexivity.
Defined.

Lemma catalog_options_distinct_witness :
  NoDup (Catalog.platforms Catalog.sheet)
  ∧ "Foundation" ∈ Catalog.platforms Catalog.sheet.
Proof.
  destruct (catalog_options_distinct Catalog.Platform Catalog.sheet [])
    as (H1 & H2 & _).
  split; [exact H1|]. apply H2. split; [discriminate|].
  exists (Catalog.row "Cloudy" "2021-03-01" "Foundation" "Edition").
  split; [|reflexivity]. unfold Catalog.sheet. rewrite !elem_of_cons. auto.
Defined.

Lemma catalog_offered_platform_has_rows_witness :
  let r := Catalog.applyFilters same_text code_lt sample_getTime sample_store
             (Catalog.setPlatformFilter "Foundation" (Catalog.fresh_state 1%positive)) in
  ∃ shown, r.1 !! Catalog.filteredNfts r.2 = Some shown ∧ shown ≠ [].
Proof.
  intros r. subst r.
  assert ("Foundation" ∈ Catalog.platforms Catalog.sheet) as Hp
    by (apply (bool_decide_unpack _); vm_compute; exact I).
  destruct (catalog_offered_platform_has_rows same_text code_lt sample_getTime
              sample_store (Catalog.fresh_state 1%positive) Catalog.sheet "Foundation")
    as (shown & H1 & H2 & _).
  - repeat split.
  - apply lookup_singleton_eq.
  - exact Hp.
  - exists shown. split; [exact H1|exact H2].
Defined.

Lemma catalog_sort_chip_witness :
  Catalog.handleSortChange Catalog.by_mint_date
    (Catalog.handleSortChange Catalog.by_mint_date (Catalog.fresh_state 1%positive))
  = Catalog.fresh_state 1%positive
  ∧ Catalog.sortOrder
      (Catalog.handleSortChange Catalog.by_type (Catalog.fresh_state 1%positive))
    = Catalog.asc.
Proof.
  destruct (catalog_sort_chip Catalog.by_mint_date (Catalog.fresh_state 1%positive))
    as (_ & _ & H3 & _).
  destruct (catalog_sort_chip Catalog.by_type (Catalog.fresh_state 1%positive))
    as (_ & H2 & _).
  split.
  - apply H3. reflexivity.
  - apply H2. discriminate.
Defined.

Lemma catalog_clear_filters_shows_all_witness :
  let st := Catalog.setPlatformFilter "OpenSea" (Catalog.fresh_state 1%positive) in
  let r := Catalog.applyFilters same_text code_lt sample_getTime sample_store
             (Catalog.clearFilters st) in
  ∃ shown, r.1 !! Catalog.filteredNfts r.2 = Some shown
           ∧ shown ≡ₚ Catalog.sheet.
Proof.
  intros st r. subst r.
  destruct (catalog_clear_filters_shows_all same_text code_lt sample_getTime
              sample_store st Catalog.sheet (lookup_singleton_eq _ _))
    as (_ & _ & _ & _ & H).
  exact H.
Defined.

Lemma catalog_page_sizes_witness :
  Catalog.paginatedNfts 2 Catalog.sheet = []
  ∧ (1 ≤ length (Catalog.paginatedNfts 1 Catalog.sheet))%nat.
Proof.
  destruct (catalog_page_sizes 2 Catalog.sheet) as (_ & _ & _ & H4 & _).
  destruct (catalog_page_sizes 1 Catalog.sheet) as (_ & _ & H3 & _).
  split.
  - apply H4. right. vm_compute. lia.
  - apply H3; [lia|reflexivity].
Defined.

Lemma catalog_image_url_witness :
  Catalog.getImageUrl (Catalog.row "Cloudy" "2021-03-01" "Foundation" "Edition")
  = ipfs "ipfs://QmCat".
Proof.
  destruct (catalog_image_url
              (Catalog.row "Cloudy" "2021-03-01" "Foundation" "Edition"))
    as (H & _).
  apply (H "QmCat"); [reflexivity|discriminate].
Defined.
